(** * Squared-L2 distance kernel over packed binary16 vectors

    Shallow embedding of [src/vector/distance.c]
    ([distance_compare_avx2_f16]) and the properties of it that the
    specification states.

    - [size_t] values are integers reduced modulo [2^64];
    - a buffer is a list of bytes; a read outside of it is a [Fault];
    - binary32 arithmetic is the IEEE-754 model of the standard library
      ([SpecFloat], precision 24, [emax] 128, round to nearest even);
    - a [__m256] register is the list of its eight binary32 lanes, lane 0
      first.  *)

From Stdlib Require Import ZArith QArith List Bool Lia.
From Stdlib Require Import Strings.Byte.
From Stdlib Require Import Floats.SpecFloat.
Import ListNotations.
Local Open Scope Z_scope.

(** ** Machine integers and memory *)

Definition SIZE_MAX1 : Z := 2 ^ 64.

(** Arithmetic on [size_t] wraps around. *)
Definition wrap (z : Z) : Z := z mod SIZE_MAX1.

Definition buffer := list byte.

Definition byte_val (b : byte) : Z := Z.of_N (Byte.to_N b).

(** [p[off]] for an [unsigned char *p]: reading past the end is undefined
    behaviour, which the model reports as [None]. *)
Definition read (p : buffer) (off : Z) : option Z :=
  if off <? 0 then None
  else option_map byte_val (nth_error p (Z.to_nat off)).

(** ** Outcomes of a run *)

Inductive outcome (A : Type) : Type :=
| Ret (a : A)
| Fault
| OutOfFuel.

Arguments Ret {A} a.
Arguments Fault {A}.
Arguments OutOfFuel {A}.

Definition bind {A B : Type} (m : outcome A) (k : A -> outcome B) : outcome B :=
  match m with
  | Ret a => k a
  | Fault => Fault
  | OutOfFuel => OutOfFuel
  end.

(** ** binary32 and binary16 *)

Definition float := spec_float.

Definition f32_add : float -> float -> float := SFadd 24 128.
Definition f32_sub : float -> float -> float := SFsub 24 128.
Definition f32_mul : float -> float -> float := SFmul 24 128.

Definition f32_zero : float := S754_zero false.

(** The value of a 16-bit pattern read as IEEE-754 binary16
    (1 sign bit, 5 exponent bits, 10 fraction bits), as a binary32. Every
    binary16 value is representable, so the conversion is exact. This is
    what one lane of [_mm256_cvtph_ps] computes. *)
Definition cvtph (h : Z) : float :=
  let s := Z.testbit h 15 in
  let e := Z.land (Z.shiftr h 10) 31 in
  let m := Z.land h 1023 in
  if e =? 31 then (if m =? 0 then S754_infinity s else S754_nan)
  else if e =? 0 then binary_normalize 24 128 (cond_Zopp s m) (-24) s
  else binary_normalize 24 128 (cond_Zopp s (1024 + m)) (e - 25) s.

(** The value of a 32-bit pattern read as IEEE-754 binary32
    (1 sign bit, 8 exponent bits, 23 fraction bits). *)
Definition float_of_bits (w : Z) : float :=
  let s := Z.testbit w 31 in
  let e := Z.land (Z.shiftr w 23) 255 in
  let m := Z.land w 8388607 in
  if e =? 255 then (if m =? 0 then S754_infinity s else S754_nan)
  else if e =? 0 then
    match m with
    | Zpos p => S754_finite s p (-149)
    | _ => S754_zero s
    end
  else
    match 8388608 + m with
    | Zpos p => S754_finite s p (e - 150)
    | _ => S754_nan
    end.

(** ** Vector registers *)

Definition m128i := list Z.      (* sixteen bytes *)
Definition m256 := list float.   (* eight binary32 lanes *)
Definition m128 := list float.   (* four binary32 lanes *)

Fixpoint loadn (n : nat) (p : buffer) (off : Z) : option (list Z) :=
  match n with
  | O => Some []
  | S n' =>
      match read p off, loadn n' p (off + 1) with
      | Some b, Some bs => Some (b :: bs)
      | _, _ => None
      end
  end.

Definition _mm_loadu_si128 (p : buffer) (off : Z) : option m128i :=
  loadn 16 p off.

(** The eight 16-bit words of a 128-bit register; x86 is little-endian, the
    byte at the lower address is the low byte of the word. *)
Fixpoint words16 (bs : list Z) : list Z :=
  match bs with
  | lo :: hi :: rest => Z.lor lo (Z.shiftl hi 8) :: words16 rest
  | _ => []
  end.

Definition _mm256_cvtph_ps (a : m128i) : m256 := map cvtph (words16 a).

Fixpoint lanewise (op : float -> float -> float) (a b : list float) : list float :=
  match a, b with
  | x :: a', y :: b' => op x y :: lanewise op a' b'
  | _, _ => []
  end.

Definition _mm256_setzero_ps : m256 := repeat f32_zero 8.
Definition _mm256_set1_ps (x : float) : m256 := repeat x 8.
Definition _mm256_add_ps : m256 -> m256 -> m256 := lanewise f32_add.
Definition _mm256_sub_ps : m256 -> m256 -> m256 := lanewise f32_sub.
Definition _mm256_mul_ps : m256 -> m256 -> m256 := lanewise f32_mul.
Definition _mm256_castps256_ps128 (a : m256) : m128 := firstn 4 a.
Definition _mm256_extractf128_ps (a : m256) (imm : nat) : m128 :=
  firstn 4 (skipn (4 * imm) a).
Definition _mm_add_ps : m128 -> m128 -> m128 := lanewise f32_add.

(** ** The kernel *)

(** What a run did to memory, in order: a vectorized iteration at element
    index [i] that loaded sixteen bytes at byte offset [off] of each buffer,
    or a remainder iteration at element index [i] that read the bytes at
    offsets [off_hi] and [off_lo] of each buffer. *)
Inductive event : Type :=
| EvGroup (i off : Z)
| EvElem (i off_hi off_lo : Z).

Record state : Type := mkState {
  idx : Z;              (* [i] *)
  acc : m256;           (* [sum_squared_diff] *)
  trace : list event
}.

(** The unions [conv1] and [conv2] of the remainder loop are four bytes
    wide and are not initialised; the store to the two-byte member [in]
    leaves the other two bytes unspecified. [conv1_hi i] and [conv2_hi i]
    are the 16-bit values of those bytes at the iteration with index [i]. *)
Record indeterminate : Type := mkIndet {
  conv1_hi : Z -> Z;
  conv2_hi : Z -> Z
}.

(** [(p[i] << 8) | p[i + 1]] stored into a [uint16_t]. *)
Definition pack16 (b0 b1 : Z) : Z := Z.lor (Z.shiftl b0 8) b1 mod 2 ^ 16.

(** [conv.in = v; conv.out]: on little-endian x86 the member [in] overlays
    the low half of the [float]. *)
Definition union_cast (hi v : Z) : float :=
  float_of_bits (Z.lor (Z.shiftl (hi mod 2 ^ 16) 16) v).

(** [for (; i <= size - 8; i += 8) { ... }] *)
Fixpoint main_loop (fuel : nat) (vec1 vec2 : buffer) (size : Z) (s : state)
  : outcome state :=
  match fuel with
  | O => OutOfFuel
  | S fuel' =>
      let i := idx s in
      if i <=? wrap (size - 8) then
        match _mm_loadu_si128 vec1 (wrap (i * 2)),
              _mm_loadu_si128 vec2 (wrap (i * 2)) with
        | Some v1_packed, Some v2_packed =>
            let v1 := _mm256_cvtph_ps v1_packed in
            let v2 := _mm256_cvtph_ps v2_packed in
            let diff := _mm256_sub_ps v1 v2 in
            main_loop fuel' vec1 vec2 size
              {| idx := wrap (i + 8);
                 acc := _mm256_add_ps (acc s) (_mm256_mul_ps diff diff);
                 trace := trace s ++ [EvGroup i (wrap (i * 2))] |}
        | _, _ => Fault
        end
      else Ret s
  end.

(** [for (; i < size; i++) { ...; i++; }] *)
Fixpoint remainder_loop (u : indeterminate) (fuel : nat) (vec1 vec2 : buffer)
  (size : Z) (s : state) : outcome state :=
  match fuel with
  | O => OutOfFuel
  | S fuel' =>
      let i := idx s in
      if i <? size then
        match read vec1 i, read vec1 (wrap (i + 1)),
              read vec2 i, read vec2 (wrap (i + 1)) with
        | Some a0, Some a1, Some b0, Some b1 =>
            let v1 := pack16 a0 a1 in
            let v2 := pack16 b0 b1 in
            let fv1 := union_cast (conv1_hi u i) v1 in
            let fv2 := union_cast (conv2_hi u i) v2 in
            let diff := f32_sub fv1 fv2 in
            remainder_loop u fuel' vec1 vec2 size
              {| idx := wrap (wrap (i + 1) + 1);
                 acc := _mm256_add_ps (acc s)
                          (_mm256_set1_ps (f32_mul diff diff));
                 trace := trace s ++ [EvElem i i (wrap (i + 1))] |}
        | _, _, _, _ => Fault
        end
      else Ret s
  end.

(** The horizontal reduction that ends the function. *)
Definition hsum (sum_squared_diff : m256) : float :=
  let sum_low := _mm256_castps256_ps128 sum_squared_diff in
  let sum_high := _mm256_extractf128_ps sum_squared_diff 1 in
  let sum_low := _mm_add_ps sum_low sum_high in
  let result (k : nat) := nth k sum_low S754_nan in
  f32_add (f32_add (f32_add (result 0%nat) (result 1%nat)) (result 2%nat))
    (result 3%nat).

Definition initial : state :=
  {| idx := 0; acc := _mm256_setzero_ps; trace := [] |}.

(** [distance_compare_avx2_f16], with the memory events of the run. *)
Definition distance_run (u : indeterminate) (fuel : nat) (vec1 vec2 : buffer)
  (size : Z) : outcome (float * list event) :=
  bind (main_loop fuel vec1 vec2 size initial) (fun s1 =>
  bind (remainder_loop u fuel vec1 vec2 size s1) (fun s2 =>
  Ret (hsum (acc s2), trace s2))).

Definition distance (u : indeterminate) (fuel : nat) (vec1 vec2 : buffer)
  (size : Z) : outcome float :=
  bind (distance_run u fuel vec1 vec2 size) (fun r => Ret (fst r)).

(** ** Building test vectors *)

Definition byte_of_Z (z : Z) : byte :=
  match Byte.of_N (Z.to_N (z mod 256)) with
  | Some b => b
  | None => Byte.x00
  end.

(** The two bytes of a 16-bit pattern as they lie in memory. *)
Definition le16 (h : Z) : buffer := [byte_of_Z h; byte_of_Z (Z.shiftr h 8)].

Definition halves (hs : list Z) : buffer := flat_map le16 hs.

(** Unspecified union bytes that happen to be zero. *)
Definition zero_hi : indeterminate :=
  {| conv1_hi := fun _ => 0; conv2_hi := fun _ => 0 |}.

(** The element indices a run went through: a vectorized iteration covers
    eight of them, a remainder iteration one. *)
Definition covered (e : event) : list Z :=
  match e with
  | EvGroup i _ => map (fun k => i + Z.of_nat k) (seq 0 8)
  | EvElem i _ _ => [i]
  end.

Definition visited (t : list event) : list Z := flat_map covered t.

(** ** Reference definitions

    The quantities the specification speaks of, written over element
    indices rather than over loads and registers. *)

(** The 16-bit pattern of element [i] of a vector: the byte pair at byte
    offsets [2 i] and [2 i + 1], low byte first. *)
Definition half_at (p : buffer) (i : Z) : Z :=
  let o := Z.to_nat (2 * i) in
  Z.lor (byte_val (nth o p Byte.x00))
        (Z.shiftl (byte_val (nth (S o) p Byte.x00)) 8).

(** The squared difference of element [i], in binary32. *)
Definition sq_diff (vec1 vec2 : buffer) (i : Z) : float :=
  let d := f32_sub (cvtph (half_at vec1 i)) (cvtph (half_at vec2 i)) in
  f32_mul d d.

(** The eight squared differences of the group that starts at element [i]. *)
Definition sq_group (vec1 vec2 : buffer) (i : Z) : m256 :=
  map (fun k => sq_diff vec1 vec2 (i + Z.of_nat k)) (seq 0 8).

(** The wide accumulator after adding the groups [k, k + n) to [a]. *)
Definition add_groups (vec1 vec2 : buffer) (k n : nat) (a : m256) : m256 :=
  fold_left (fun a j => _mm256_add_ps a (sq_group vec1 vec2 (8 * Z.of_nat j)))
            (seq k n) a.

(** The events of the vectorized iterations over the groups [k, k + n). *)
Definition group_events (k n : nat) : list event :=
  map (fun j => EvGroup (8 * Z.of_nat j) (wrap (8 * Z.of_nat j * 2))) (seq k n).

(** The total of lane [k]: the squared differences of the elements
    [k, k + 8, k + 16, ...] added in that order to [+0]. *)
Definition lane_total (vec1 vec2 : buffer) (groups k : nat) : float :=
  fold_left
    (fun x j => f32_add x (sq_diff vec1 vec2 (8 * Z.of_nat j + Z.of_nat k)))
    (seq 0 groups) f32_zero.

(** The sum of the squared differences of the first [size] elements in
    binary32, each lane added up on its own and the eight totals combined
    as the final reduction of the kernel combines them. *)
Definition lanewise_sum (vec1 vec2 : buffer) (size : Z) : float :=
  let L := lane_total vec1 vec2 (Z.to_nat (size / 8)) in
  f32_add
    (f32_add (f32_add (f32_add (L 0%nat) (L 4%nat)) (f32_add (L 1%nat) (L 5%nat)))
             (f32_add (L 2%nat) (L 6%nat)))
    (f32_add (L 3%nat) (L 7%nat)).

(** The brute-force reference: one binary32 accumulator, the elements
    taken in order. *)
Definition brute_force (vec1 vec2 : buffer) (size : Z) : float :=
  fold_left (fun x i => f32_add x (sq_diff vec1 vec2 (Z.of_nat i)))
            (seq 0 (Z.to_nat size)) f32_zero.

(** ** Real values

    The real number a binary32 datum stands for, and the real number a
    binary16 bit pattern stands for; infinities and NaN stand for none. *)

Definition F2Q (x : float) : option Q :=
  match x with
  | S754_zero _ => Some 0%Q
  | S754_finite s m e => Some (inject_Z (cond_Zopp s (Zpos m)) * Qpower 2 e)%Q
  | _ => None
  end.

(** [decode]: sign bit, five exponent bits biased by 15, ten fraction
    bits; exponent field 0 holds the subnormals, 31 infinities and NaN. *)
Definition decode (h : Z) : option Q :=
  let s := Z.testbit h 15 in
  let e := Z.land (Z.shiftr h 10) 31 in
  let m := Z.land h 1023 in
  if e =? 31 then None
  else if e =? 0 then Some (inject_Z (cond_Zopp s m) * Qpower 2 (-24))%Q
  else Some (inject_Z (cond_Zopp s (1024 + m)) * Qpower 2 (e - 25))%Q.

(** The mathematical sum of the squared differences of the elements with
    the given indices. *)
Fixpoint exact_sum (vec1 vec2 : buffer) (indices : list Z) : option Q :=
  match indices with
  | [] => Some 0%Q
  | i :: rest =>
      match decode (half_at vec1 i), decode (half_at vec2 i),
            exact_sum vec1 vec2 rest with
      | Some a, Some b, Some t => Some ((a - b) * (a - b) + t)%Q
      | _, _, _ => None
      end
  end.

(** ** Test vectors *)

(** The elements [1, 2, ..., 8] and [1, 2, ..., 7, 9]. *)
Definition one_to_eight : buffer :=
  halves [0x3C00; 0x4000; 0x4200; 0x4400; 0x4500; 0x4600; 0x4700; 0x4800].
Definition one_to_seven_nine : buffer :=
  halves [0x3C00; 0x4000; 0x4200; 0x4400; 0x4500; 0x4600; 0x4700; 0x4880].

(** [65504], [2^-24] and six zeros; eight zeros. *)
Definition big_and_tiny : buffer := halves [0x7BFF; 0x0001; 0; 0; 0; 0; 0; 0].
Definition eight_zeros : buffer := halves [0; 0; 0; 0; 0; 0; 0; 0].

(** Ten zero elements. *)
Definition ten_zeros : buffer := halves (repeat 0 10).

(** An infinity and fifteen zero bytes. *)
Definition inf_and_zeros : buffer := halves [0x7C00; 0; 0; 0; 0; 0; 0; 0].

(** Eighteen bytes, all zero but the byte at offset 9, and eighteen zero
    bytes. *)
Definition byte9_set : buffer :=
  map byte_of_Z [0; 0; 0; 0; 0; 0; 0; 0; 0; 1; 0; 0; 0; 0; 0; 0; 0; 0].
Definition zeros18 : buffer := map byte_of_Z (repeat 0 18).

(** Eighteen zero bytes but for the stored ninth element, which is [1.0]. *)
Definition ninth_is_one : buffer :=
  map byte_of_Z [0; 0; 0; 0; 0; 0; 0; 0; 0; 0; 0; 0; 0; 0; 0; 0; 0x00; 0x3C].

(** Unspecified union bytes that differ between [conv1] and [conv2]. *)
Definition uneven_hi : indeterminate :=
  {| conv1_hi := fun _ => 0x3F80; conv2_hi := fun _ => 0 |}.

(** ** Auxiliary definitions *)

(** The squared difference the remainder iteration at index [i] adds. *)
Definition rem_sq (u : indeterminate) (vec1 vec2 : buffer) (i : Z) : float :=
  let byte (p : buffer) (o : Z) := byte_val (nth (Z.to_nat o) p Byte.x00) in
  let fv1 := union_cast (conv1_hi u i) (pack16 (byte vec1 i) (byte vec1 (i + 1))) in
  let fv2 := union_cast (conv2_hi u i) (pack16 (byte vec2 i) (byte vec2 (i + 1))) in
  let diff := f32_sub fv1 fv2 in
  f32_mul diff diff.

(** A binary16 pattern that is neither an infinity nor a NaN. *)
Definition finite_half (h : Z) : bool :=
  negb (Z.land (Z.shiftr h 10) 31 =? 31).

Definition is_finite (x : float) : bool :=
  match x with
  | S754_zero _ | S754_finite _ _ _ => true
  | _ => false
  end.

(** [f] holds of [z, z + 1, ..., z + count - 1]. *)
Fixpoint all_from (count : nat) (z : Z) (f : Z -> bool) : bool :=
  match count with
  | O => true
  | S count' => f z && all_from count' (z + 1) f
  end.

(** [f] holds of [0, 1, ..., n - 1]. *)
Definition all_below (n : Z) (f : Z -> bool) : bool :=
  all_from (Z.to_nat n) 0 f.

(** The binary32 datum [1.0]. *)
Definition is_one (x : float) : bool :=
  match x with
  | S754_finite false 8388608 (-23) => true
  | _ => false
  end.

(** [M / 2^n] rounded to the nearest integer, ties to the even one. *)
Definition rne (M n : Z) : Z :=
  let q := M / 2 ^ n in
  match 2 * (M mod 2 ^ n) ?= 2 ^ n with
  | Lt => q
  | Eq => if Z.even q then q else q + 1
  | Gt => q + 1
  end.

(** The value of a finite binary32 in units of [2^-149], of which every
    finite binary32 is an integer multiple. *)
Definition val (x : float) : Z :=
  match x with
  | S754_finite s m e => cond_Zopp s (Zpos m * 2 ^ (e + 149))
  | _ => 0
  end.

(** A normal binary32, a positive one, and one that is [+0] or positive
    and normal. *)
Definition normal (x : float) : Prop :=
  match x with
  | S754_finite _ m e => 8388608 <= Zpos m < 16777216 /\ -149 <= e
  | _ => False
  end.

Definition pos_normal (x : float) : Prop :=
  match x with
  | S754_finite false m e => 8388608 <= Zpos m < 16777216 /\ -149 <= e
  | _ => False
  end.

Definition nonneg (x : float) : Prop := x = f32_zero \/ pos_normal x.

(** [x] is a nonnegative binary32 whose value is the real [S] (in units
    of [2^-149]) up to [k] roundings: between [S (1 - 2^-24)^k] and
    [S (1 + 2^-24)^k]. *)
Definition approx (k : nat) (x : float) (S : Z) : Prop :=
  nonneg x /\ 0 <= S /\
  16777215 ^ Z.of_nat k * S <= 16777216 ^ Z.of_nat k * val x /\
  16777216 ^ Z.of_nat k * val x <= 16777217 ^ Z.of_nat k * S.

Definition sumZ (l : list Z) : Z := fold_right Z.add 0 l.

(** [x] is within relative error [10^-5] of [y], both finite. *)
Definition within_1e5 (x y : float) : Prop :=
  is_finite x = true /\ is_finite y = true /\
  100000 * Z.abs (val x - val y) <= Z.abs (val y).

(** What the conversion of a finite binary16 can be: a zero, or a normal
    binary32 of magnitude between [2^-24] and [65504]. *)
Definition half_image (x : float) : bool :=
  match x with
  | S754_zero _ => true
  | S754_finite _ m e =>
      (8388608 <=? Zpos m) && (Zpos m <? 16777216) && (-47 <=? e) && (e <=? -8)
  | _ => false
  end.

(** What the difference of two such conversions can be: a zero, or a
    normal binary32 of magnitude between [2^-47] and [2^18]. *)
Definition small_diff (x : float) : Prop :=
  (exists s, x = S754_zero s) \/
  (exists s m e, x = S754_finite s m e /\
                 8388608 <= Zpos m < 16777216 /\ -70 <= e <= -6).

(** The sum of the terms of lane [k] over [n] groups. *)
Definition lane_sum (t : Z -> Z) (n k : nat) : Z :=
  sumZ (map (fun j => t (8 * Z.of_nat j + Z.of_nat k)) (seq 0 n)).

(** 512 elements: [65504] followed by [22.625]'s, and [-65504] followed by
    zeros. *)
Definition big_then_small : buffer := halves (0x7BFF :: repeat 0x4DA8 511).
Definition minus_big_then_zeros : buffer := halves (0xFBFF :: repeat 0 511).

(** ** [load_128bit_to_256bit] *)

Definition m256i := list Z.      (* thirty-two bytes *)

Definition _mm_setzero_si128 : m128i := repeat 0 16.

(** [_mm256_castsi128_si256]: the low half of the result is the argument
    and the upper half is undefined; [upper] is what the upper half
    happens to hold. *)
Definition _mm256_castsi128_si256 (upper : list Z) (a : m128i) : m256i :=
  a ++ upper.

(** [_mm256_inserti128_si256 (a, b, imm)]: [a] with its half number [imm]
    replaced by [b]. *)
Definition _mm256_inserti128_si256 (a : m256i) (b : m128i) (imm : nat) : m256i :=
  match imm with
  | O => b ++ skipn 16 a
  | _ => firstn 16 a ++ b
  end.

(** [load_128bit_to_256bit (ptr)], [ptr] being the address [off] bytes
    into [p]. *)
Definition load_128bit_to_256bit (upper : list Z) (p : buffer) (off : Z)
  : option m256i :=
  match _mm_loadu_si128 p off with
  | Some value128 =>
      let value256 := _mm256_castsi128_si256 upper value128 in
      Some (_mm256_inserti128_si256 value256 _mm_setzero_si128 1)
  | None => None
  end.

(** The unsigned integer a little-endian sequence of bytes stands for. *)
Fixpoint le_value (bs : list Z) : Z :=
  match bs with
  | [] => 0
  | b :: rest => b + 256 * le_value rest
  end.

(** ** The remainder loop, over element indices *)

(** The events of the remainder iterations number [k, k + c), the first
    of which is at index [i0]: they are two indices apart. *)
Definition rem_events (i0 : Z) (k c : nat) : list event :=
  map (fun j => EvElem (i0 + 2 * Z.of_nat j) (i0 + 2 * Z.of_nat j)
                       (i0 + 2 * Z.of_nat j + 1))
      (seq k c).

(** The wide accumulator after these iterations. *)
Definition add_rems (u : indeterminate) (vec1 vec2 : buffer) (i0 : Z)
  (k c : nat) (a : m256) : m256 :=
  fold_left
    (fun a j => _mm256_add_ps a
                  (_mm256_set1_ps (rem_sq u vec1 vec2 (i0 + 2 * Z.of_nat j))))
    (seq k c) a.

(** The bytes an event read lie in the first [n] bytes of the buffers. *)
Definition reads_within (n : Z) (e : event) : Prop :=
  match e with
  | EvGroup _ off => 0 <= off /\ off + 16 <= n
  | EvElem _ off_hi off_lo => 0 <= off_hi < n /\ 0 <= off_lo < n
  end.

(** Nine elements, all zero. *)
Definition nine_zeros : buffer := halves (repeat 0 9).

(** A binary32 that is not negative: NaN, or a zero, a finite number or
    an infinity whose sign bit is clear. *)
Definition no_minus (x : float) : bool :=
  match x with
  | S754_zero s | S754_infinity s | S754_finite s _ _ => negb s
  | S754_nan => true
  end.

(** What the remainder loop decodes when the unspecified union bytes are
    zero: [+0] or a positive subnormal below [2^-133]. *)
Definition tiny (x : float) : Prop :=
  x = f32_zero \/
  exists p : positive, x = S754_finite false p (-149) /\ Zpos p < 65536.

(** Equality of two optional reals. *)
Definition Qopt_eqb (a b : option Q) : bool :=
  match a, b with
  | Some x, Some y => Qeq_bool x y
  | None, None => true
  | _, _ => false
  end.

(** ** The vectorized loop, over byte offsets *)

(** The [n] bytes of [p] at the offsets [off], [off + 1], ... *)
Definition bytes_at (p : buffer) (off : Z) (n : nat) : list Z :=
  map (fun k => byte_val (nth (Z.to_nat off + k) p Byte.x00)) (seq 0 n).

(** The eight squared differences of the binary16 elements held by the
    sixteen bytes at byte offset [off] of each buffer. *)
Definition group_term (vec1 vec2 : buffer) (off : Z) : m256 :=
  let v1 := _mm256_cvtph_ps (bytes_at vec1 off 16) in
  let v2 := _mm256_cvtph_ps (bytes_at vec2 off 16) in
  let diff := _mm256_sub_ps v1 v2 in
  _mm256_mul_ps diff diff.

(** The wide accumulator after adding to [a] the terms of the groups
    [k, k + n), the group [j] being read at the byte offset that [size_t]
    computes for [8 j * 2]. *)
Definition add_group_terms (vec1 vec2 : buffer) (k n : nat) (a : m256) : m256 :=
  fold_left
    (fun a j => _mm256_add_ps a (group_term vec1 vec2 (wrap (8 * Z.of_nat j * 2))))
    (seq k n) a.


(** ** The remainder loop, lane by lane *)

(** The lane [x] after the remainder iterations [0, c), the first of which
    is at index [i0]: every iteration adds its squared difference to it. *)
Definition rem_total (u : indeterminate) (vec1 vec2 : buffer) (i0 : Z)
  (c : nat) (x : float) : float :=
  fold_left (fun x j => f32_add x (rem_sq u vec1 vec2 (i0 + 2 * Z.of_nat j)))
            (seq 0 c) x.
(** ** Arithmetic on [size_t] *)

Lemma SIZE_MAX1_eq : SIZE_MAX1 = 18446744073709551616.
Proof. reflexivity. Qed.

Lemma wrap_range (z : Z) : 0 <= wrap z < SIZE_MAX1.
Proof. unfold wrap. apply Z.mod_pos_bound. rewrite SIZE_MAX1_eq. lia. Qed.

Lemma wrap_small (z : Z) : 0 <= z < SIZE_MAX1 -> wrap z = z.
Proof. intros H. unfold wrap. now apply Z.mod_small. Qed.

Lemma wrap_neg (z : Z) : - SIZE_MAX1 <= z < 0 -> wrap z = z + SIZE_MAX1.
Proof.
  intros H. unfold wrap. symmetry.
  apply (Z.mod_unique z SIZE_MAX1 (-1)); lia.
Qed.

Lemma wrap_le (z : Z) : 0 <= z -> wrap z <= z.
Proof.
  intros H. unfold wrap. apply Z.mod_le; [assumption|].
  rewrite SIZE_MAX1_eq. lia.
Qed.

Lemma wrap_mod8 (z : Z) : wrap z mod 8 = z mod 8.
Proof.
  unfold wrap. apply Z.mod_mod_divide.
  exists 2305843009213693952. rewrite SIZE_MAX1_eq. reflexivity.
Qed.

Global Opaque SIZE_MAX1.

(** ** Sizes below the group width *)

(** With [size < 8] the bound [size - 8] wraps to at least [2^64 - 8], which
    no multiple of eight below [2^64] exceeds: the vectorized loop is never
    left through its test. *)
Lemma main_loop_small_size (vec1 vec2 : buffer) (size : Z) :
  0 <= size < 8 ->
  forall (fuel : nat) (s s' : state),
    idx s mod 8 = 0 -> 0 <= idx s < SIZE_MAX1 ->
    main_loop fuel vec1 vec2 size s <> Ret s'.
Proof.
  intros Hsize fuel. induction fuel as [|fuel IH]; intros s s' Hmod Hrange.
  - discriminate.
  - cbn [main_loop].
    assert (Hb : wrap (size - 8) = size - 8 + SIZE_MAX1).
    { apply wrap_neg. rewrite SIZE_MAX1_eq. lia. }
    rewrite Hb.
    assert (Hle : idx s <= size - 8 + SIZE_MAX1).
    { rewrite SIZE_MAX1_eq in *.
      pose proof (Z.div_mod (idx s) 8 ltac:(lia)) as E. rewrite Hmod in E. lia. }
    apply Z.leb_le in Hle. rewrite Hle.
    destruct (_mm_loadu_si128 vec1 _); [|discriminate].
    destruct (_mm_loadu_si128 vec2 _); [|discriminate].
    apply IH; cbn [idx].
    + rewrite wrap_mod8. rewrite <- Z.add_mod_idemp_l by lia. rewrite Hmod. reflexivity.
    + apply wrap_range.
Qed.

(** ** Loads *)

Lemma read_in_bounds (p : buffer) (off : Z) :
  0 <= off < Z.of_nat (length p) ->
  read p off = Some (byte_val (nth (Z.to_nat off) p Byte.x00)).
Proof.
  intros H. unfold read.
  destruct (off <? 0) eqn:E; [apply Z.ltb_lt in E; lia|].
  rewrite (nth_error_nth' p Byte.x00) by lia. reflexivity.
Qed.

Lemma read_out_of_bounds (p : buffer) (off : Z) :
  Z.of_nat (length p) <= off -> read p off = None.
Proof.
  intros H. unfold read.
  destruct (off <? 0) eqn:E; [reflexivity|].
  replace (nth_error p (Z.to_nat off)) with (@None byte); [reflexivity|].
  symmetry. apply nth_error_None. lia.
Qed.

Lemma loadn_in_bounds (n : nat) (p : buffer) :
  forall off : Z,
    0 <= off -> off + Z.of_nat n <= Z.of_nat (length p) ->
    loadn n p off
    = Some (map (fun j => byte_val (nth (Z.to_nat off + j) p Byte.x00)) (seq 0 n)).
Proof.
  induction n as [|n IH]; intros off H0 Hn.
  - reflexivity.
  - cbn [loadn]. rewrite read_in_bounds by lia.
    rewrite IH by lia. cbn [seq map]. rewrite Nat.add_0_r.
    do 2 f_equal. rewrite <- seq_shift, map_map.
    apply map_ext. intros j. do 2 f_equal. lia.
Qed.

Lemma group_loads (vec1 vec2 : buffer) (i : Z) :
  0 <= i -> 2 * i + 16 <= Z.of_nat (length vec1) ->
  2 * i + 16 <= Z.of_nat (length vec2) ->
  exists p1 p2,
    _mm_loadu_si128 vec1 (2 * i) = Some p1 /\
    _mm_loadu_si128 vec2 (2 * i) = Some p2 /\
    _mm256_mul_ps (_mm256_sub_ps (_mm256_cvtph_ps p1) (_mm256_cvtph_ps p2))
                  (_mm256_sub_ps (_mm256_cvtph_ps p1) (_mm256_cvtph_ps p2))
    = sq_group vec1 vec2 i.
Proof.
  intros H0 H1 H2. unfold _mm_loadu_si128.
  rewrite !loadn_in_bounds by (change (Z.of_nat 16) with 16; lia).
  do 2 eexists. split; [reflexivity|]. split; [reflexivity|].
  cbn [seq map]. unfold _mm256_cvtph_ps. cbn [words16 map].
  unfold _mm256_mul_ps, _mm256_sub_ps. cbn [lanewise].
  unfold sq_group. cbn [seq map]. unfold sq_diff, half_at.
  assert (E : forall k : nat, Z.to_nat (2 * (i + Z.of_nat k)) = (Z.to_nat (2 * i) + 2 * k)%nat)
    by (intros; lia).
  rewrite !E. cbn [Nat.mul Nat.add].
  rewrite <- !plus_n_Sm, !Nat.add_0_r. reflexivity.
Qed.

(** ** The vectorized loop on sizes of at least one group *)

Lemma group_events_snoc (k n : nat) :
  group_events k (S n) = EvGroup (8 * Z.of_nat k) (wrap (8 * Z.of_nat k * 2))
                         :: group_events (S k) n.
Proof. reflexivity. Qed.

Lemma main_loop_run (vec1 vec2 : buffer) (size : Z) :
  8 <= size < SIZE_MAX1 ->
  2 * size <= Z.of_nat (length vec1) ->
  2 * size <= Z.of_nat (length vec2) ->
  forall (n fuel k : nat) (s : state),
    idx s = 8 * Z.of_nat k ->
    Z.of_nat k + Z.of_nat n = size / 8 ->
    (n < fuel)%nat ->
    exists s',
      main_loop fuel vec1 vec2 size s = Ret s' /\
      idx s' = 8 * (size / 8) /\
      trace s' = trace s ++ group_events k n /\
      (2 * size <= SIZE_MAX1 -> acc s' = add_groups vec1 vec2 k n (acc s)).
Proof.
  intros Hsize H1 H2.
  assert (Hb : wrap (size - 8) = size - 8) by (apply wrap_small; lia).
  pose proof (Z.mul_div_le size 8 ltac:(lia)) as Hdiv.
  pose proof (Z.mod_pos_bound size 8 ltac:(lia)) as Hmod.
  pose proof (Z.div_mod size 8 ltac:(lia)) as Hdm.
  induction n as [|n IH]; intros fuel k s Hidx Hk Hfuel;
    (destruct fuel as [|fuel]; [lia|]); cbn [main_loop]; rewrite Hb.
  - assert (E : (idx s <=? size - 8) = false) by (apply Z.leb_gt; lia).
    rewrite E. exists s. repeat split.
    + lia.
    + cbn. now rewrite app_nil_r.
  - assert (E : (idx s <=? size - 8) = true) by (apply Z.leb_le; lia).
    rewrite E.
    pose proof (wrap_range (idx s * 2)) as Hw.
    pose proof (wrap_le (idx s * 2) ltac:(lia)) as Hw'.
    unfold _mm_loadu_si128 at 1 2.
    rewrite !loadn_in_bounds by (change (Z.of_nat 16) with 16; lia).
    match goal with
    | |- exists s', main_loop _ _ _ _ ?st = _ /\ _ =>
        destruct (IH fuel (S k) st) as (s' & Hrun & Hi & Ht & Ha)
    end.
    + cbn [idx]. rewrite wrap_small; lia.
    + lia.
    + lia.
    + exists s'. split; [exact Hrun|]. split; [exact Hi|]. split.
      * rewrite Ht. cbn [trace]. rewrite <- app_assoc. cbn [app].
        rewrite group_events_snoc, Hidx. reflexivity.
      * intros Haddr. rewrite (Ha Haddr). cbn [acc].
        unfold add_groups. cbn [seq fold_left]. f_equal. f_equal.
        destruct (group_loads vec1 vec2 (idx s)) as (p1 & p2 & L1 & L2 & Hsq);
          try lia.
        rewrite <- Hidx, <- Hsq.
        assert (Ew : wrap (idx s * 2) = 2 * idx s) by (rewrite wrap_small; lia).
        rewrite Ew.
        unfold _mm_loadu_si128 in L1, L2.
        rewrite loadn_in_bounds in L1, L2 by (change (Z.of_nat 16) with 16; lia).
        injection L1 as <-. injection L2 as <-. reflexivity.
Qed.

(** ** Sizes that are a multiple of the group width *)

Lemma remainder_loop_done (u : indeterminate) (fuel : nat)
  (vec1 vec2 : buffer) (size : Z) (s : state) :
  size <= idx s ->
  remainder_loop u (S fuel) vec1 vec2 size s = Ret s.
Proof.
  intros H. cbn [remainder_loop].
  assert (E : (idx s <? size) = false) by (apply Z.ltb_ge; lia).
  now rewrite E.
Qed.

Section Lanes.
Variables vec1 vec2 : buffer.

Let lane (k n l : nat) (x : float) : float :=
  fold_left
    (fun x j => f32_add x (sq_diff vec1 vec2 (8 * Z.of_nat j + Z.of_nat l)))
    (seq k n) x.

Lemma add_groups_lanes (n : nat) :
  forall (k : nat) (a0 a1 a2 a3 a4 a5 a6 a7 : float),
    add_groups vec1 vec2 k n [a0; a1; a2; a3; a4; a5; a6; a7]
    = [lane k n 0 a0; lane k n 1 a1; lane k n 2 a2; lane k n 3 a3;
       lane k n 4 a4; lane k n 5 a5; lane k n 6 a6; lane k n 7 a7]%nat.
Proof.
  induction n as [|n IH]; intros k a0 a1 a2 a3 a4 a5 a6 a7.
  - reflexivity.
  - unfold add_groups, lane. cbn [seq fold_left].
    unfold add_groups, lane in IH.
    unfold sq_group, _mm256_add_ps. cbn [seq map lanewise].
    rewrite IH. reflexivity.
Qed.

Lemma hsum_add_groups (size : Z) :
  hsum (add_groups vec1 vec2 0 (Z.to_nat (size / 8)) _mm256_setzero_ps)
  = lanewise_sum vec1 vec2 size.
Proof.
  unfold _mm256_setzero_ps. cbn [repeat].
  rewrite add_groups_lanes. reflexivity.
Qed.
End Lanes.

Lemma distance_run_multiple_of_8 (u : indeterminate) (fuel : nat)
  (vec1 vec2 : buffer) (size : Z) :
  8 <= size -> size mod 8 = 0 ->
  2 * size <= Z.of_nat (length vec1) ->
  2 * size <= Z.of_nat (length vec2) ->
  Z.of_nat (length vec1) < SIZE_MAX1 ->
  size / 8 < Z.of_nat fuel ->
  distance_run u fuel vec1 vec2 size
  = Ret (lanewise_sum vec1 vec2 size, group_events 0 (Z.to_nat (size / 8))).
Proof.
  intros H8 Hmod L1 L2 Haddr Hfuel.
  pose proof (Z.div_mod size 8 ltac:(lia)) as Hdm.
  destruct (main_loop_run vec1 vec2 size ltac:(lia) L1 L2
              (Z.to_nat (size / 8)) fuel 0%nat initial)
    as (s' & Hrun & Hi & Ht & Ha); try (cbn [idx initial]; lia).
  unfold distance_run. rewrite Hrun. cbn [bind].
  destruct fuel as [|fuel]; [lia|].
  rewrite remainder_loop_done by lia. cbn [bind].
  rewrite Ht, Ha by lia. cbn [initial acc trace app].
  now rewrite hsum_add_groups.
Qed.

(** ** The result on whole groups *)

(** C1 (as amended). For a size that is a positive multiple of 8 and
    buffers of at least [2 * size] bytes, the kernel returns the sum of the
    squared decoded differences evaluated in binary32 arithmetic: every
    subtraction, multiplication and addition is rounded to nearest even, the
    terms of the elements [k, k + 8, ...] are added in that order per lane
    [k], and the eight lane totals are combined as
    [((L0 + L4) + (L1 + L5)) + (L2 + L6) + (L3 + L7)]. *)
Theorem distance_is_lanewise_binary32_sum (u : indeterminate) (fuel : nat)
  (vec1 vec2 : buffer) (size : Z) :
  8 <= size -> size mod 8 = 0 ->
  2 * size <= Z.of_nat (length vec1) ->
  2 * size <= Z.of_nat (length vec2) ->
  Z.of_nat (length vec1) < SIZE_MAX1 ->
  size / 8 < Z.of_nat fuel ->
  distance u fuel vec1 vec2 size = Ret (lanewise_sum vec1 vec2 size).
Proof.
  intros. unfold distance.
  rewrite distance_run_multiple_of_8 by assumption. reflexivity.
Qed.

Lemma distance_is_lanewise_binary32_sum_witness :
  (8 <= 8 /\ 8 mod 8 = 0 /\
   2 * 8 <= Z.of_nat (length one_to_eight) /\
   2 * 8 <= Z.of_nat (length one_to_seven_nine) /\
   Z.of_nat (length one_to_eight) < SIZE_MAX1 /\
   8 / 8 < Z.of_nat 2) /\
  distance zero_hi 2 one_to_eight one_to_seven_nine 8
  = Ret (lanewise_sum one_to_eight one_to_seven_nine 8).
Proof.
  assert (H : 8 <= 8 /\ 8 mod 8 = 0 /\
   2 * 8 <= Z.of_nat (length one_to_eight) /\
   2 * 8 <= Z.of_nat (length one_to_seven_nine) /\
   Z.of_nat (length one_to_eight) < SIZE_MAX1 /\
   8 / 8 < Z.of_nat 2).
  { rewrite SIZE_MAX1_eq. cbn. lia. }
  split; [exact H|].
  destruct H as (H1 & H2 & H3 & H4 & H5 & H6).
  exact (distance_is_lanewise_binary32_sum zero_hi 2 one_to_eight
           one_to_seven_nine 8 H1 H2 H3 H4 H5 H6).
Defined.

(** The scenario of the specification: [1..8] against [1..7, 9] is [1.0]. *)
Example distance_one_to_eight :
  distance zero_hi 2 one_to_eight one_to_seven_nine 8
  = Ret (S754_finite false 8388608 (-23)).
Proof. vm_compute. reflexivity. Qed.

(** C1 (as stated) fails. With elements [65504] and [2^-24] against zeros
    the real sum is [65504^2 + 2^-48]; the kernel returns [65504^2], the
    nearest binary32. *)
Lemma returned_scalar_is_rounded :
  exists (r : float) (t : list event) (q q' : Q),
    distance_run zero_hi 2 big_and_tiny eight_zeros 8 = Ret (r, t) /\
    F2Q r = Some q /\
    exact_sum big_and_tiny eight_zeros (visited t) = Some q' /\
    ~ (q == q')%Q.
Proof.
  eexists. eexists. eexists. eexists.
  split; [vm_compute; reflexivity|].
  split; [vm_compute; reflexivity|].
  split; [vm_compute; reflexivity|].
  vm_compute. discriminate.
Qed.

(** ** Sizes below the group width, continued *)

Lemma distance_run_small_size (u : indeterminate) (fuel : nat)
  (vec1 vec2 : buffer) (size : Z) (r : float * list event) :
  0 <= size < 8 ->
  distance_run u fuel vec1 vec2 size <> Ret r.
Proof.
  intros Hsize. unfold distance_run.
  destruct (main_loop fuel vec1 vec2 size initial) as [s| |] eqn:E;
    cbn [bind]; try discriminate.
  exfalso. revert E. apply main_loop_small_size; cbn [initial idx].
  - exact Hsize.
  - reflexivity.
  - rewrite SIZE_MAX1_eq. lia.
Qed.

(** C4 (defect). With [size = 0] the kernel returns nothing, whatever the
    buffers and however long it runs: [size - 8] wraps to [2^64 - 8], the
    vectorized loop is entered and can only end in a read outside the
    buffers. *)
Theorem distance_size_zero_never_returns (u : indeterminate) (fuel : nat)
  (vec1 vec2 : buffer) (r : float) :
  distance u fuel vec1 vec2 0 <> Ret r.
Proof.
  unfold distance.
  destruct (distance_run u fuel vec1 vec2 0) as [x| |] eqn:E;
    cbn [bind]; try discriminate.
  exfalso. revert E. apply distance_run_small_size. lia.
Qed.

(** On empty buffers the first load already faults. *)
Example distance_size_zero_empty (u : indeterminate) (fuel : nat) :
  distance u (S fuel) [] [] 0 = Fault.
Proof. reflexivity. Qed.

(** ** The remainder loop *)

(** C2 (defect). With [size = 10] the two loops go through the indices
    [0..8] only: the remainder loop advances its index twice per
    iteration and leaves index 9 out. *)
Theorem remainder_skips_index_9 (u : indeterminate) :
  bind (distance_run u 3 ten_zeros ten_zeros 10)
       (fun r => Ret (snd r, visited (snd r)))
  = Ret ([EvGroup 0 0; EvElem 8 8 9], [0; 1; 2; 3; 4; 5; 6; 7; 8]) /\
  ~ In 9 [0; 1; 2; 3; 4; 5; 6; 7; 8].
Proof.
  split.
  - vm_compute. reflexivity.
  - cbn. lia.
Qed.

Lemma remainder_loop_step (u : indeterminate) (fuel : nat)
  (vec1 vec2 : buffer) (size : Z) (s : state) :
  0 <= idx s < size ->
  idx s + 1 < Z.of_nat (length vec1) ->
  idx s + 1 < Z.of_nat (length vec2) ->
  idx s + 2 < SIZE_MAX1 ->
  remainder_loop u (S fuel) vec1 vec2 size s
  = remainder_loop u fuel vec1 vec2 size
      {| idx := idx s + 2;
         acc := _mm256_add_ps (acc s) (_mm256_set1_ps (rem_sq u vec1 vec2 (idx s)));
         trace := trace s ++ [EvElem (idx s) (idx s) (idx s + 1)] |}.
Proof.
  intros Hi L1 L2 Hmax. cbn [remainder_loop].
  assert (E : (idx s <? size) = true) by (apply Z.ltb_lt; lia).
  rewrite E.
  rewrite !(wrap_small (idx s + 1)) by lia.
  rewrite !read_in_bounds by lia.
  rewrite wrap_small by lia.
  replace (idx s + 1 + 1) with (idx s + 2) by lia.
  reflexivity.
Qed.

(** ** Exhaustive checks over bit patterns *)

Lemma all_from_spec (count : nat) (f : Z -> bool) :
  forall z0 : Z,
    all_from count z0 f = true ->
    forall z : Z, z0 <= z < z0 + Z.of_nat count -> f z = true.
Proof.
  induction count as [|count IH]; intros z0 H z Hz; [lia|].
  cbn [all_from] in H. apply andb_true_iff in H. destruct H as [H0 H].
  destruct (Z.eq_dec z z0) as [->|Hne]; [exact H0|].
  apply (IH (z0 + 1) H). lia.
Qed.

Lemma all_below_spec (n : Z) (f : Z -> bool) :
  all_below n f = true ->
  forall z : Z, 0 <= z < n -> f z = true.
Proof.
  unfold all_below. intros H z Hz.
  apply (all_from_spec _ _ 0 H). lia.
Qed.

Lemma byte_val_range (b : byte) : 0 <= byte_val b < 256.
Proof.
  unfold byte_val. pose proof (Byte.to_N_bounded b). lia.
Qed.

Lemma lor_shiftl_8_range (lo hi : Z) :
  0 <= lo < 256 -> 0 <= hi < 256 -> 0 <= Z.lor lo (Z.shiftl hi 8) < 65536.
Proof.
  intros Hlo Hhi. rewrite Z.shiftl_mul_pow2 by lia.
  change (2 ^ 8) with 256.
  pose proof (Z.add_lor_land lo (hi * 256)) as E.
  assert (0 <= Z.land lo (hi * 256)) by (apply Z.land_nonneg; lia).
  assert (0 <= Z.lor lo (hi * 256)) by (apply Z.lor_nonneg; lia).
  lia.
Qed.

Lemma half_at_range (p : buffer) (i : Z) : 0 <= half_at p i < 65536.
Proof.
  unfold half_at. apply lor_shiftl_8_range; apply byte_val_range.
Qed.

Lemma cvtph_table :
  all_below 65536 (fun h => implb (finite_half h) (half_image (cvtph h))) = true.
Proof. vm_compute. reflexivity. Qed.

Lemma cvtph_half_image (h : Z) :
  0 <= h < 65536 -> finite_half h = true -> half_image (cvtph h) = true.
Proof.
  intros Hh Hf.
  pose proof (all_below_spec _ _ cvtph_table h Hh) as T.
  cbv beta in T. rewrite Hf in T. exact T.
Qed.

Lemma cvtph_finite (h : Z) :
  0 <= h < 65536 -> finite_half h = true -> is_finite (cvtph h) = true.
Proof.
  intros Hh Hf. pose proof (cvtph_half_image h Hh Hf) as T.
  destruct (cvtph h); (reflexivity || discriminate T).
Qed.

(** ** A vector against itself *)

Lemma f32_sub_diag (x : float) : is_finite x = true -> f32_sub x x = f32_zero.
Proof.
  destruct x as [s|s| |s m e]; cbn [is_finite]; intros H; try discriminate.
  - destruct s; reflexivity.
  - unfold f32_sub, SFsub. rewrite Z.min_id.
    unfold shl_align. rewrite !Z.sub_diag. reflexivity.
Qed.

Lemma sq_diff_diag (v : buffer) (i : Z) :
  finite_half (half_at v i) = true -> sq_diff v v i = f32_zero.
Proof.
  intros H. unfold sq_diff.
  rewrite f32_sub_diag; [reflexivity|].
  apply cvtph_finite; [apply half_at_range | exact H].
Qed.

Lemma fold_add_zero {A : Type} (g : A -> float) (l : list A) :
  (forall j, In j l -> g j = f32_zero) ->
  fold_left (fun x j => f32_add x (g j)) l f32_zero = f32_zero.
Proof.
  induction l as [|j l IH]; intros H; cbn [fold_left].
  - reflexivity.
  - rewrite (H j (or_introl eq_refl)). cbn. apply IH.
    intros j' Hj'. apply H. now right.
Qed.

Lemma lane_total_diag (v : buffer) (size : Z) (k : nat) :
  0 <= size -> (k < 8)%nat ->
  (forall i, 0 <= i < size -> finite_half (half_at v i) = true) ->
  lane_total v v (Z.to_nat (size / 8)) k = f32_zero.
Proof.
  intros Hs Hk Hfin. unfold lane_total. apply fold_add_zero.
  intros j Hj. apply in_seq in Hj. apply sq_diff_diag, Hfin.
  pose proof (Z.mul_div_le size 8 ltac:(lia)).
  assert (Z.of_nat j < size / 8) by lia. lia.
Qed.

(** C8 (as amended). For a vector whose elements are all finite (no
    infinity, no NaN) and a size that is a positive multiple of 8, the
    distance of the vector to itself is [+0]. *)
Theorem distance_self_finite (u : indeterminate) (fuel : nat) (v : buffer)
  (size : Z) :
  8 <= size -> size mod 8 = 0 ->
  2 * size <= Z.of_nat (length v) ->
  Z.of_nat (length v) < SIZE_MAX1 ->
  size / 8 < Z.of_nat fuel ->
  (forall i, 0 <= i < size -> finite_half (half_at v i) = true) ->
  distance u fuel v v size = Ret f32_zero.
Proof.
  intros H8 Hmod L Haddr Hfuel Hfin. unfold distance.
  rewrite distance_run_multiple_of_8 by assumption. cbn [bind fst].
  unfold lanewise_sum.
  rewrite !(lane_total_diag v size) by (assumption || lia).
  reflexivity.
Qed.

Lemma one_to_eight_finite (i : Z) :
  0 <= i < 8 -> finite_half (half_at one_to_eight i) = true.
Proof.
  intros H.
  assert (E : i = 0 \/ i = 1 \/ i = 2 \/ i = 3 \/ i = 4 \/ i = 5 \/ i = 6 \/ i = 7)
    by lia.
  repeat (destruct E as [-> | E]; [reflexivity|]). subst i. reflexivity.
Defined.

Lemma distance_self_finite_witness :
  (8 <= 8 /\ 8 mod 8 = 0 /\
   2 * 8 <= Z.of_nat (length one_to_eight) /\
   Z.of_nat (length one_to_eight) < SIZE_MAX1 /\
   8 / 8 < Z.of_nat 2 /\
   (forall i, 0 <= i < 8 -> finite_half (half_at one_to_eight i) = true)) /\
  distance zero_hi 2 one_to_eight one_to_eight 8 = Ret f32_zero.
Proof.
  assert (H : 8 <= 8 /\ 8 mod 8 = 0 /\
   2 * 8 <= Z.of_nat (length one_to_eight) /\
   Z.of_nat (length one_to_eight) < SIZE_MAX1 /\
   8 / 8 < Z.of_nat 2).
  { rewrite SIZE_MAX1_eq. cbn. lia. }
  destruct H as (H1 & H2 & H3 & H4 & H5).
  split; [repeat split; try assumption; exact one_to_eight_finite|].
  exact (distance_self_finite zero_hi 2 one_to_eight 8 H1 H2 H3 H4 H5
           one_to_eight_finite).
Defined.

(** C8 (as stated) fails. A vector that holds an infinity is at distance
    NaN from itself: [inf - inf] is NaN. *)
Lemma distance_self_infinity_is_nan :
  distance zero_hi 2 inf_and_zeros inf_and_zeros 8 = Ret S754_nan /\
  distance zero_hi 2 inf_and_zeros inf_and_zeros 8 <> Ret f32_zero /\
  distance zero_hi 2 inf_and_zeros inf_and_zeros 8 <> Ret (S754_zero true).
Proof.
  assert (E : distance zero_hi 2 inf_and_zeros inf_and_zeros 8 = Ret S754_nan)
    by (vm_compute; reflexivity).
  rewrite E. repeat split; discriminate.
Qed.

(** ** One group and one remainder element *)

Lemma wrap_0 : wrap 0 = 0.
Proof. apply wrap_small. rewrite SIZE_MAX1_eq. lia. Qed.

Lemma distance_run_size_9 (u : indeterminate) (fuel : nat) (vec1 vec2 : buffer) :
  18 <= Z.of_nat (length vec1) ->
  18 <= Z.of_nat (length vec2) ->
  (2 <= fuel)%nat ->
  distance_run u fuel vec1 vec2 9
  = Ret (hsum (_mm256_add_ps
                 (_mm256_add_ps _mm256_setzero_ps (sq_group vec1 vec2 0))
                 (_mm256_set1_ps (rem_sq u vec1 vec2 8))),
         [EvGroup 0 0; EvElem 8 8 9]).
Proof.
  intros L1 L2 Hfuel.
  destruct (main_loop_run vec1 vec2 9 ltac:(rewrite SIZE_MAX1_eq; lia)
              ltac:(lia) ltac:(lia) 1%nat fuel 0%nat initial)
    as (s & Hrun & Hi & Ht & Ha); try reflexivity; try lia.
  specialize (Ha ltac:(rewrite SIZE_MAX1_eq; lia)).
  change (9 / 8) with 1 in Hi. change (8 * 1) with 8 in Hi.
  cbn in Ht.
  unfold distance_run. rewrite Hrun. cbn [bind].
  destruct fuel as [|[|fuel]]; try lia.
  rewrite remainder_loop_step
    by (rewrite Hi; rewrite ?SIZE_MAX1_eq; lia).
  rewrite remainder_loop_done by (cbn [idx]; lia).
  cbn [bind acc trace]. rewrite Hi, Ht, Ha. reflexivity.
Qed.

Lemma nth_agree {A : Type} (n o : nat) (p q : list A) (d : A) :
  firstn n p = firstn n q -> (o < n)%nat -> nth o p d = nth o q d.
Proof.
  intros H Ho.
  rewrite <- (firstn_skipn n p), <- (firstn_skipn n q), H.
  destruct (Nat.lt_ge_cases o (length (firstn n q))) as [Hlt|Hge].
  - rewrite !app_nth1; trivial.
  - assert (Lp : length (firstn n p) = length (firstn n q)) by now rewrite H.
    rewrite !length_firstn in *.
    rewrite !app_nth2 by (rewrite length_firstn; lia).
    rewrite !length_firstn.
    rewrite !nth_overflow; trivial; rewrite length_skipn; lia.
Qed.

Lemma sq_group_0_agree (v1 v2 w1 w2 : buffer) :
  firstn 16 v1 = firstn 16 w1 -> firstn 16 v2 = firstn 16 w2 ->
  sq_group v1 v2 0 = sq_group w1 w2 0.
Proof.
  intros H1 H2. unfold sq_group. apply map_ext_in.
  intros k Hk. apply in_seq in Hk. unfold sq_diff, half_at.
  rewrite !(nth_agree 16 _ v1 w1) by (assumption || lia).
  rewrite !(nth_agree 16 _ v2 w2) by (assumption || lia).
  reflexivity.
Qed.

Lemma rem_sq_8_agree (u : indeterminate) (v1 v2 w1 w2 : buffer) :
  firstn 16 v1 = firstn 16 w1 -> firstn 16 v2 = firstn 16 w2 ->
  rem_sq u v1 v2 8 = rem_sq u w1 w2 8.
Proof.
  intros H1 H2. unfold rem_sq.
  rewrite !(nth_agree 16 _ v1 w1) by (assumption || cbn; lia).
  rewrite !(nth_agree 16 _ v2 w2) by (assumption || cbn; lia).
  reflexivity.
Qed.

(** C10. With [size = 9] the remainder iteration has index 8 and reads
    the bytes at offsets 8 and 9 of each buffer, not 16 and 17. Two input
    pairs that agree on their first sixteen bytes, whatever their bytes at
    offsets 16 and 17, give the same result and the same reads: the stored
    ninth element has no influence. *)
Theorem ninth_element_is_ignored (u : indeterminate) (fuel : nat)
  (v1 v2 w1 w2 : buffer) :
  firstn 16 v1 = firstn 16 w1 ->
  firstn 16 v2 = firstn 16 w2 ->
  18 <= Z.of_nat (length v1) -> 18 <= Z.of_nat (length v2) ->
  18 <= Z.of_nat (length w1) -> 18 <= Z.of_nat (length w2) ->
  (2 <= fuel)%nat ->
  exists r : float,
    distance_run u fuel v1 v2 9 = Ret (r, [EvGroup 0 0; EvElem 8 8 9]) /\
    distance_run u fuel w1 w2 9 = Ret (r, [EvGroup 0 0; EvElem 8 8 9]).
Proof.
  intros H1 H2 Lv1 Lv2 Lw1 Lw2 Hfuel.
  rewrite !distance_run_size_9 by assumption.
  rewrite (sq_group_0_agree v1 v2 w1 w2 H1 H2).
  rewrite (rem_sq_8_agree u v1 v2 w1 w2 H1 H2).
  eexists. split; reflexivity.
Qed.

(** Two pairs that differ in the bytes at offsets 16 and 17 only: the
    ninth element is [0.0] in one and [1.0] in the other. *)
Lemma ninth_element_is_ignored_witness :
  (firstn 16 zeros18 = firstn 16 ninth_is_one /\
   firstn 16 zeros18 = firstn 16 zeros18 /\
   skipn 16 zeros18 <> skipn 16 ninth_is_one /\
   18 <= Z.of_nat (length zeros18) /\
   18 <= Z.of_nat (length ninth_is_one) /\
   (2 <= 2)%nat) /\
  exists r : float,
    distance_run zero_hi 2 zeros18 zeros18 9
    = Ret (r, [EvGroup 0 0; EvElem 8 8 9]) /\
    distance_run zero_hi 2 ninth_is_one zeros18 9
    = Ret (r, [EvGroup 0 0; EvElem 8 8 9]).
Proof.
  assert (H : firstn 16 zeros18 = firstn 16 ninth_is_one /\
   firstn 16 zeros18 = firstn 16 zeros18 /\
   skipn 16 zeros18 <> skipn 16 ninth_is_one /\
   18 <= Z.of_nat (length zeros18) /\
   18 <= Z.of_nat (length ninth_is_one) /\
   (2 <= 2)%nat).
  { repeat split; try reflexivity; try (cbn; lia). cbn. discriminate. }
  split; [exact H|].
  destruct H as (H1 & H2 & _ & H3 & H4 & H5).
  exact (ninth_element_is_ignored zero_hi 2 zeros18 zeros18 ninth_is_one zeros18
           H1 H2 H3 H3 H4 H3 H5).
Defined.

(** ** The decoding of the remainder loop *)

Lemma union_cast_3C00_table :
  all_below 65536
    (fun hi => negb (is_one (float_of_bits (Z.lor (Z.shiftl hi 16) 0x3C00))))
  = true.
Proof. vm_compute. reflexivity. Qed.

(** C6 (defect). The remainder loop packs its two bytes as
    [(b0 << 8) | b1] but does not decode the pattern as a binary16: the
    pattern becomes the low half of a binary32 bit pattern. The bytes
    [0x3C, 0x00] pack to [0x3C00], which is [1.0] as a binary16 and which the
    vectorized loop's conversion maps to [1.0]; the remainder loop's value
    is never [1.0], whatever the unspecified bytes of the union, and is
    [15360 * 2^-149] when they are zero. *)
Theorem remainder_decode_is_not_binary16 (hi : Z) :
  pack16 0x3C 0x00 = 0x3C00 /\
  cvtph (pack16 0x3C 0x00) = S754_finite false 8388608 (-23) /\
  decode (pack16 0x3C 0x00) = Some (inject_Z 1024 * Qpower 2 (-10))%Q /\
  union_cast hi (pack16 0x3C 0x00) <> cvtph (pack16 0x3C 0x00) /\
  union_cast 0 (pack16 0x3C 0x00) = S754_finite false 15360 (-149).
Proof.
  split; [reflexivity|]. split; [reflexivity|]. split; [reflexivity|].
  split; [|reflexivity].
  change (pack16 0x3C 0x00) with 0x3C00.
  change (cvtph 0x3C00) with (S754_finite false 8388608 (-23)).
  unfold union_cast. intros E.
  assert (R : 0 <= hi mod 2 ^ 16 < 65536) by (apply Z.mod_pos_bound; lia).
  pose proof (all_below_spec _ _ union_cast_3C00_table _ R) as T.
  cbv beta in T. rewrite E in T. discriminate T.
Qed.

(** ** Exchanging the two vectors *)

(** C7 (defect). With one remainder element the result depends on which
    buffer goes through [conv1] and which through [conv2], whose
    unspecified bytes need not agree: exchanging the vectors changes the
    result. *)
Theorem distance_not_symmetric_in_remainder :
  distance uneven_hi 2 byte9_set zeros18 9
  = Ret (S754_finite false 8388610 (-20)) /\
  distance uneven_hi 2 zeros18 byte9_set 9
  = Ret (S754_finite false 8388608 (-20)).
Proof. split; vm_compute; reflexivity. Qed.

(** * Rounding in binary32

    What [SpecFloat]'s rounding computes, in terms of integer division. *)

(** ** Number of binary digits *)

Lemma digits2_size (p : positive) : digits2_pos p = Pos.size p.
Proof. induction p; cbn; congruence. Qed.

Lemma digits_bounds (p : positive) :
  2 ^ (Zpos (digits2_pos p) - 1) <= Zpos p < 2 ^ Zpos (digits2_pos p).
Proof.
  rewrite digits2_size.
  pose proof (Pos.size_gt p) as Hgt. pose proof (Pos.size_le p) as Hle.
  apply Pos2Z.pos_lt_pos in Hgt. apply Pos2Z.pos_le_pos in Hle.
  rewrite Pos2Z.inj_pow in Hgt, Hle.
  replace (Zpos (Pos.size p)) with (Z.succ (Zpos (Pos.size p) - 1)) in Hle at 1 by lia.
  rewrite Z.pow_succ_r in Hle by lia.
  change (Zpos p~0) with (2 * Zpos p) in Hle. lia.
Qed.

Lemma digits_unique (p : positive) (k : Z) :
  2 ^ (k - 1) <= Zpos p < 2 ^ k -> Zpos (digits2_pos p) = k.
Proof.
  intros [Hlo Hhi]. pose proof (digits_bounds p) as [Dlo Dhi].
  set (d := Zpos (digits2_pos p)) in *.
  assert (Hk : 0 < k).
  { destruct (Z.lt_ge_cases 0 k) as [|Hk]; [assumption|].
    destruct (Z.eq_dec k 0) as [->|]; [cbn in Hhi; lia|].
    rewrite Z.pow_neg_r in Hhi by lia. lia. }
  destruct (Z.lt_trichotomy d k) as [Hlt|[Heq|Hgt]]; [|exact Heq|].
  - pose proof (Z.pow_le_mono_r 2 d (k - 1) ltac:(lia) ltac:(lia)). lia.
  - pose proof (Z.pow_le_mono_r 2 k (d - 1) ltac:(lia) ltac:(lia)). lia.
Qed.

Lemma shift_pos_mul (m d : positive) :
  Zpos (Pos.iter xO m d) = Zpos m * 2 ^ Zpos d.
Proof.
  induction d as [|d IH] using Pos.peano_ind.
  - cbn [Pos.iter]. rewrite Z.pow_1_r. lia.
  - rewrite Pos.iter_succ, Pos2Z.inj_succ, Z.pow_succ_r by lia.
    change (Zpos (Pos.iter xO m d)~0) with (2 * Zpos (Pos.iter xO m d)).
    rewrite IH. ring.
Qed.

(** ** Shifting right with a rounding bit and a sticky bit *)

Lemma iter_pos_iter {A : Type} (f : A -> A) (p : positive) :
  forall x : A, iter_pos f p x = Pos.iter f x p.
Proof.
  induction p as [p IH|p IH|]; intros x; cbn [iter_pos Pos.iter].
  - rewrite !IH, !Pos.iter_swap. reflexivity.
  - rewrite !IH. reflexivity.
  - reflexivity.
Qed.

Lemma shr_1_spec (m : Z) (r s : bool) :
  0 <= m ->
  shr_1 {| shr_m := m; shr_r := r; shr_s := s |}
  = {| shr_m := m / 2; shr_r := Z.odd m; shr_s := r || s |}.
Proof.
  intros Hm. rewrite <- Z.div2_div.
  destruct m as [|p|p]; [reflexivity| |lia].
  destruct p; reflexivity.
Qed.

Lemma mod_pow2_succ (M k : Z) :
  0 <= k ->
  M mod 2 ^ (k + 1) = M mod 2 ^ k + 2 ^ k * ((M / 2 ^ k) mod 2).
Proof.
  intros Hk. rewrite Z.pow_add_r, Z.pow_1_r by lia.
  apply Z.rem_mul_r; [|lia].
  pose proof (Z.pow_pos_nonneg 2 k ltac:(lia) Hk). lia.
Qed.

Lemma shr_iter_spec (M : Z) (p : positive) :
  0 <= M ->
  Pos.iter shr_1 {| shr_m := M; shr_r := false; shr_s := false |} p
  = {| shr_m := M / 2 ^ Zpos p;
       shr_r := Z.odd (M / 2 ^ (Zpos p - 1));
       shr_s := negb (M mod 2 ^ (Zpos p - 1) =? 0) |}.
Proof.
  intros HM. induction p as [|p IH] using Pos.peano_ind.
  - cbn [Pos.iter]. rewrite shr_1_spec by exact HM.
    change (Zpos 1 - 1) with 0. rewrite Z.pow_0_r, Z.div_1_r, Z.mod_1_r.
    reflexivity.
  - rewrite Pos.iter_succ, IH.
    rewrite shr_1_spec by (apply Z.div_pos; [exact HM|apply Z.pow_pos_nonneg; lia]).
    rewrite Pos2Z.inj_succ.
    replace (Z.succ (Zpos p) - 1) with (Zpos p) by lia.
    f_equal.
    + rewrite Z.pow_succ_r by lia. rewrite Z.div_div by (try apply Z.pow_pos_nonneg; lia).
      f_equal. ring.
    + pose proof (mod_pow2_succ M (Zpos p - 1) ltac:(lia)) as E.
      replace (Zpos p - 1 + 1) with (Zpos p) in E by lia.
      pose proof (Z.mod_pos_bound M (2 ^ (Zpos p - 1))
                    ltac:(apply Z.pow_pos_nonneg; lia)) as B.
      pose proof (Z.pow_pos_nonneg 2 (Zpos p - 1) ltac:(lia) ltac:(lia)) as P.
      rewrite (Zmod_odd (M / 2 ^ (Zpos p - 1))) in E.
      destruct (Z.odd (M / 2 ^ (Zpos p - 1))); cbn [orb].
      * symmetry. apply negb_true_iff, Z.eqb_neq. lia.
      * f_equal. f_equal. lia.
Qed.

(** ** Round to nearest even *)

Lemma shr_round (M : Z) (p : positive) :
  0 <= M ->
  let mrs := Pos.iter shr_1 {| shr_m := M; shr_r := false; shr_s := false |} p in
  round_nearest_even (shr_m mrs) (loc_of_shr_record mrs) = rne M (Zpos p).
Proof.
  intros HM mrs. subst mrs. rewrite shr_iter_spec by exact HM.
  cbn [shr_m]. unfold rne.
  pose proof (mod_pow2_succ M (Zpos p - 1) ltac:(lia)) as E.
  replace (Zpos p - 1 + 1) with (Zpos p) in E by lia.
  pose proof (Z.mod_pos_bound M (2 ^ (Zpos p - 1))
                ltac:(apply Z.pow_pos_nonneg; lia)) as B.
  assert (P : 2 ^ Zpos p = 2 * 2 ^ (Zpos p - 1)).
  { rewrite <- Z.pow_succ_r by lia. f_equal. lia. }
  rewrite (Zmod_odd (M / 2 ^ (Zpos p - 1))) in E.
  destruct (Z.odd (M / 2 ^ (Zpos p - 1)));
    destruct (M mod 2 ^ (Zpos p - 1) =? 0) eqn:T;
    [apply Z.eqb_eq in T|apply Z.eqb_neq in T
    |apply Z.eqb_eq in T|apply Z.eqb_neq in T];
    cbn [negb loc_of_shr_record round_nearest_even].
  - replace (2 * (M mod 2 ^ Zpos p) ?= 2 ^ Zpos p) with Eq
      by (symmetry; apply Z.compare_eq_iff; lia).
    reflexivity.
  - replace (2 * (M mod 2 ^ Zpos p) ?= 2 ^ Zpos p) with Gt
      by (symmetry; apply Z.compare_gt_iff; lia).
    reflexivity.
  - replace (2 * (M mod 2 ^ Zpos p) ?= 2 ^ Zpos p) with Lt
      by (symmetry; apply Z.compare_lt_iff; lia).
    reflexivity.
  - replace (2 * (M mod 2 ^ Zpos p) ?= 2 ^ Zpos p) with Lt
      by (symmetry; apply Z.compare_lt_iff; lia).
    reflexivity.
Qed.

Lemma rne_0 (M : Z) : rne M 0 = M.
Proof.
  unfold rne. rewrite Z.pow_0_r, Z.mod_1_r, Z.div_1_r. reflexivity.
Qed.

Lemma rne_cases (M n : Z) :
  rne M n = M / 2 ^ n \/ rne M n = M / 2 ^ n + 1.
Proof.
  unfold rne. destruct (2 * (M mod 2 ^ n) ?= 2 ^ n); auto.
  destruct (Z.even (M / 2 ^ n)); auto.
Qed.

(** The rounded quotient is within half a unit of the exact one. *)
Lemma rne_error (M n : Z) :
  0 <= n -> 2 * Z.abs (rne M n * 2 ^ n - M) <= 2 ^ n.
Proof.
  intros Hn.
  pose proof (Z.pow_pos_nonneg 2 n ltac:(lia) Hn) as P.
  pose proof (Z.div_mod M (2 ^ n) ltac:(lia)) as D.
  pose proof (Z.mod_pos_bound M (2 ^ n) P) as B.
  unfold rne.
  set (P2 := 2 ^ n) in *. set (q := M / P2) in *. set (r := M mod P2) in *.
  clearbody q r P2. subst M.
  assert (E1 : q * P2 - (P2 * q + r) = - r) by ring.
  assert (E2 : (q + 1) * P2 - (P2 * q + r) = P2 - r) by ring.
  destruct (Z.compare_spec (2 * r) P2) as [C|C|C];
    try destruct (Z.even q); rewrite ?E1, ?E2; lia.
Qed.

Lemma div_pow2_range (M n k : Z) :
  0 <= n -> 0 <= k ->
  2 ^ (k + n) <= M < 2 ^ (k + 1 + n) ->
  2 ^ k <= M / 2 ^ n < 2 ^ (k + 1).
Proof.
  intros Hn Hk [Hlo Hhi].
  pose proof (Z.pow_pos_nonneg 2 n ltac:(lia) Hn) as P.
  rewrite Z.pow_add_r in Hlo, Hhi by lia.
  split.
  - apply Z.div_le_lower_bound; lia.
  - apply Z.div_lt_upper_bound; lia.
Qed.

Lemma rne_range (M : positive) :
  let n := Zpos (digits2_pos M) - 24 in
  0 <= n -> 8388608 <= rne (Zpos M) n <= 16777216.
Proof.
  intros n Hn. pose proof (digits_bounds M) as D.
  pose proof (div_pow2_range (Zpos M) n 23 Hn ltac:(lia)) as R.
  replace (23 + n) with (Zpos (digits2_pos M) - 1) in R by (subst n; lia).
  replace (23 + 1 + n) with (Zpos (digits2_pos M)) in R by (subst n; lia).
  specialize (R D). change (2 ^ 23) with 8388608 in R.
  change (2 ^ (23 + 1)) with 16777216 in R.
  destruct (rne_cases (Zpos M) n) as [E|E]; rewrite E; lia.
Qed.

(** ** Rounding a mantissa of at least 24 digits *)

Lemma fexp_normal (d e : Z) :
  -149 <= d + e - 24 -> fexp 24 128 (d + e) = d + e - 24.
Proof. intros H. unfold fexp, emin. lia. Qed.

Lemma binary_round_aux_normal (s : bool) (M : positive) (e : Z) :
  let n := Zpos (digits2_pos M) - 24 in
  0 <= n -> -149 <= e + n -> e + n + 1 <= 104 ->
  binary_round_aux 24 128 s (Zpos M) e loc_Exact
  = if rne (Zpos M) n =? 16777216
    then S754_finite s 8388608 (e + n + 1)
    else S754_finite s (Z.to_pos (rne (Zpos M) n)) (e + n).
Proof.
  intros n Hn Hlo Hhi.
  pose proof (rne_range M Hn) as R. fold n in R.
  unfold binary_round_aux, shr_fexp. cbn [Zdigits2 shr_record_of_loc].
  rewrite fexp_normal by (subst n; lia).
  replace (Zpos (digits2_pos M) + e - 24 - e) with n by (subst n; lia).
  assert (Hsnd : forall m1 e1, 8388608 <= m1 <= 16777216 ->
            -149 <= e1 -> e1 + 1 <= 104 ->
            (let '(mrs'', e'') :=
               shr {| shr_m := m1; shr_r := false; shr_s := false |} e1
                   (fexp 24 128 (Zdigits2 m1 + e1) - e1) in
             match shr_m mrs'' with
             | 0 => S754_zero s
             | Zpos m => if e'' <=? 128 - 24 then S754_finite s m e''
                         else S754_infinity s
             | Zneg _ => S754_nan
             end)
            = if m1 =? 16777216 then S754_finite s 8388608 (e1 + 1)
              else S754_finite s (Z.to_pos m1) e1).
  { intros m1 e1 Hm1 He1 He1'.
    destruct m1 as [|p1|p1]; try lia. cbn [Zdigits2].
    destruct (Z.eqb_spec (Zpos p1) 16777216) as [E|E].
    - injection E as ->. cbn [digits2_pos Pos.succ].
      rewrite fexp_normal by lia.
      replace (25 + e1 - 24 - e1) with 1 by lia.
      cbn [shr iter_pos shr_1 shr_m]. cbv iota beta. cbn [shr_m].
      replace (e1 + 1 <=? 128 - 24) with true by (symmetry; apply Z.leb_le; lia).
      reflexivity.
    - assert (D : Zpos (digits2_pos p1) = 24).
      { apply digits_unique. change (2 ^ (24 - 1)) with 8388608.
        change (2 ^ 24) with 16777216. lia. }
      rewrite D, fexp_normal by lia.
      replace (24 + e1 - 24 - e1) with 0 by lia.
      cbn [shr shr_m]. cbv iota beta. cbn [shr_m].
      replace (e1 <=? 128 - 24) with true by (symmetry; apply Z.leb_le; lia).
      reflexivity. }
  destruct n as [|p|p] eqn:En; [| |lia].
  - cbn [shr]. cbv iota beta. cbn [shr_m loc_of_shr_record round_nearest_even].
    rewrite rne_0 in *. rewrite Hsnd by lia.
    rewrite Z.add_0_r. reflexivity.
  - cbn [shr]. cbv iota beta. rewrite iter_pos_iter.
    rewrite (shr_round (Zpos M) p ltac:(lia)).
    rewrite Hsnd by lia. reflexivity.
Qed.

Lemma binary_round_aux_normal_ex (s : bool) (M : positive) (e : Z) :
  let n := Zpos (digits2_pos M) - 24 in
  0 <= n -> -149 <= e + n -> e + n + 1 <= 104 ->
  exists (m' : positive) (e' : Z),
    binary_round_aux 24 128 s (Zpos M) e loc_Exact = S754_finite s m' e' /\
    8388608 <= Zpos m' < 16777216 /\
    e + n <= e' <= e + n + 1 /\
    Zpos m' * 2 ^ (e' - (e + n)) = rne (Zpos M) n.
Proof.
  intros n Hn Hlo Hhi.
  rewrite binary_round_aux_normal by assumption. fold n.
  pose proof (rne_range M Hn) as R. fold n in R.
  destruct (Z.eqb_spec (rne (Zpos M) n) 16777216) as [E|E].
  - exists 8388608%positive, (e + n + 1). repeat split; try lia.
    replace (e + n + 1 - (e + n)) with 1 by lia. rewrite E. reflexivity.
  - exists (Z.to_pos (rne (Zpos M) n)), (e + n).
    rewrite Z2Pos.id by lia. repeat split; try lia.
    rewrite Z.sub_diag. lia.
Qed.

Lemma digits_ge (M : positive) (k : Z) :
  2 ^ (k - 1) <= Zpos M -> k <= Zpos (digits2_pos M).
Proof.
  intros H. pose proof (digits_bounds M) as [_ D].
  destruct (Z.le_gt_cases k (Zpos (digits2_pos M))) as [|G]; [assumption|].
  pose proof (Z.pow_le_mono_r 2 (Zpos (digits2_pos M)) (k - 1) ltac:(lia) ltac:(lia)).
  lia.
Qed.

Lemma digits_le (M : positive) (k : Z) :
  0 <= k -> Zpos M < 2 ^ k -> Zpos (digits2_pos M) <= k.
Proof.
  intros Hk H. pose proof (digits_bounds M) as [D _].
  destruct (Z.le_gt_cases (Zpos (digits2_pos M)) k) as [|G]; [assumption|].
  pose proof (Z.pow_le_mono_r 2 k (Zpos (digits2_pos M) - 1) ltac:(lia) ltac:(lia)).
  lia.
Qed.

(** ** Aligning two mantissas *)

Lemma shl_align_val (m : positive) (e ez : Z) :
  ez <= e -> Zpos (fst (shl_align m e ez)) = Zpos m * 2 ^ (e - ez).
Proof.
  intros H. unfold shl_align.
  destruct (ez - e) as [|p|p] eqn:E; cbn [fst]; try lia.
  - replace (e - ez) with 0 by lia. lia.
  - rewrite shift_pos_mul. f_equal. f_equal. lia.
Qed.

Lemma val_finite_pos (m : positive) (e ez : Z) :
  -149 <= ez <= e ->
  Zpos m * 2 ^ (e + 149) = Zpos m * 2 ^ (e - ez) * 2 ^ (ez + 149).
Proof.
  intros H. rewrite <- Z.mul_assoc, <- Z.pow_add_r by lia.
  do 2 f_equal. lia.
Qed.

(** ** Addition of positive normal numbers *)

Lemma f32_add_pos_normal (x y : float) :
  pos_normal x -> pos_normal y ->
  val x + val y < 2 ^ 275 ->
  pos_normal (f32_add x y) /\
  16777216 * Z.abs (val (f32_add x y) - (val x + val y)) <= val x + val y.
Proof.
  destruct x as [| | |[|] mx ex]; try contradiction.
  destruct y as [| | |[|] my ey]; try contradiction.
  cbn [pos_normal val cond_Zopp]. intros [Hmx Hex] [Hmy Hey] Hsum.
  unfold f32_add, SFadd. cbn [cond_Zopp].
  set (ez := Z.min ex ey).
  assert (Hez : -149 <= ez /\ ez <= ex /\ ez <= ey) by (subst ez; lia).
  rewrite !shl_align_val by lia.
  rewrite (val_finite_pos mx ex ez), (val_finite_pos my ey ez) in * by lia.
  set (W := 2 ^ (ez + 149)) in *.
  assert (HW : 0 < W) by (apply Z.pow_pos_nonneg; lia).
  pose proof (Z.pow_pos_nonneg 2 (ex - ez) ltac:(lia) ltac:(lia)) as Px.
  pose proof (Z.pow_pos_nonneg 2 (ey - ez) ltac:(lia) ltac:(lia)) as Py.
  set (X := Zpos mx * 2 ^ (ex - ez)) in *.
  set (Y := Zpos my * 2 ^ (ey - ez)) in *.
  assert (HX : 8388608 <= X) by (subst X; nia).
  assert (HY : 8388608 <= Y) by (subst Y; nia).
  destruct (X + Y) as [|M|M] eqn:EM; try lia.
  cbn [binary_normalize]. unfold binary_round.
  pose proof (digits_bounds M) as [Dlo Dhi].
  pose proof (digits_ge M 24 ltac:(change (2 ^ (24 - 1)) with 8388608; lia)) as Dge.
  set (d := Zpos (digits2_pos M)) in *.
  assert (Dhi' : d + ez <= 126).
  { assert (L : 2 ^ (d - 1) * W < 2 ^ 275).
    { apply Z.le_lt_trans with (Zpos M * W); [|lia].
      apply Z.mul_le_mono_nonneg_r; lia. }
    unfold W in L. rewrite <- Z.pow_add_r in L by lia.
    apply Z.pow_lt_mono_r_iff in L; lia. }
  rewrite fexp_normal by lia.
  unfold shl_align.
  destruct (d + ez - 24 - ez) as [|p|p] eqn:En; try lia;
    cbv iota beta;
    destruct (binary_round_aux_normal_ex false M ez ltac:(fold d; lia)
                ltac:(fold d; lia) ltac:(fold d; lia))
      as (m' & e' & -> & Hm' & He' & Hv);
    fold d in He', Hv;
    cbn [pos_normal val cond_Zopp];
    (split; [lia|]);
    pose proof (rne_error (Zpos M) (d - 24) ltac:(lia)) as Herr;
    rewrite <- Hv in Herr;
    replace (Zpos m' * 2 ^ (e' + 149))
      with (Zpos m' * 2 ^ (e' - (ez + (d - 24))) * 2 ^ (d - 24) * W)
      by (unfold W; rewrite <- !Z.mul_assoc, <- !Z.pow_add_r by lia;
          do 2 f_equal; lia);
    set (R := Zpos m' * 2 ^ (e' - (ez + (d - 24))) * 2 ^ (d - 24)) in *;
    replace (R * W - (X * W + Y * W)) with ((R - Zpos M) * W) by (rewrite <- EM; ring);
    rewrite Z.abs_mul, (Z.abs_eq W) by lia;
    replace (X * W + Y * W) with (Zpos M * W) by (rewrite <- EM; ring);
    assert (Hn : 8388608 * 2 ^ (d - 24) <= Zpos M)
      by (replace (d - 1) with (23 + (d - 24)) in Dlo by lia;
          rewrite Z.pow_add_r in Dlo by lia; exact Dlo);
    assert (Hq : 16777216 * Z.abs (R - Zpos M) <= Zpos M) by lia;
    rewrite Z.mul_assoc; apply Z.mul_le_mono_nonneg_r; lia.
Qed.

(** ** Addition of nonnegative numbers *)

Lemma val_nonneg (x : float) : nonneg x -> 0 <= val x.
Proof.
  intros [->|H]; [cbn; lia|].
  destruct x as [| | |[|] m e]; try contradiction. cbn [val cond_Zopp].
  destruct H as [_ He].
  pose proof (Z.pow_pos_nonneg 2 (e + 149) ltac:(lia) ltac:(lia)). nia.
Qed.

Lemma f32_add_nonneg (x y : float) :
  nonneg x -> nonneg y -> val x + val y < 2 ^ 275 ->
  nonneg (f32_add x y) /\
  16777216 * Z.abs (val (f32_add x y) - (val x + val y)) <= val x + val y.
Proof.
  intros Hx Hy Hsum.
  pose proof (val_nonneg x Hx) as Vx. pose proof (val_nonneg y Hy) as Vy.
  destruct Hx as [->|Hx], Hy as [->|Hy].
  - cbn. split; [now left|lia].
  - destruct y as [| | |[|] m e]; try contradiction.
    change (f32_add f32_zero (S754_finite false m e)) with (S754_finite false m e).
    split; [now right|]. change (val f32_zero) with 0 in *.
    rewrite Z.add_0_l, Z.sub_diag. cbn [Z.abs]. lia.
  - destruct x as [| | |[|] m e]; try contradiction.
    change (f32_add (S754_finite false m e) f32_zero) with (S754_finite false m e).
    split; [now right|]. change (val f32_zero) with 0 in *.
    rewrite Z.add_0_r, Z.sub_diag. cbn [Z.abs]. lia.
  - destruct (f32_add_pos_normal x y Hx Hy Hsum) as [N E].
    split; [now right|exact E].
Qed.

(** ** Accumulated rounding *)

Lemma approx_exact (x : float) : nonneg x -> approx 0 x (val x).
Proof.
  intros H. pose proof (val_nonneg x H). unfold approx.
  cbn [Z.of_nat]. rewrite !Z.pow_0_r. repeat split; (assumption || lia).
Qed.

Lemma approx_S (k : nat) (x : float) (S : Z) :
  approx k x S -> approx (Datatypes.S k) x S.
Proof.
  intros (Hx & HS & Hlo & Hhi). pose proof (val_nonneg x Hx) as V.
  unfold approx. rewrite Nat2Z.inj_succ, !Z.pow_succ_r by lia.
  pose proof (Z.pow_pos_nonneg 16777215 (Z.of_nat k) ltac:(lia) ltac:(lia)).
  pose proof (Z.pow_pos_nonneg 16777216 (Z.of_nat k) ltac:(lia) ltac:(lia)).
  pose proof (Z.pow_pos_nonneg 16777217 (Z.of_nat k) ltac:(lia) ltac:(lia)).
  set (cm := 16777215 ^ Z.of_nat k) in *.
  set (a := 16777216 ^ Z.of_nat k) in *.
  set (cp := 16777217 ^ Z.of_nat k) in *.
  assert (0 <= a * val x) by (apply Z.mul_nonneg_nonneg; lia).
  assert (0 <= cp * S) by (apply Z.mul_nonneg_nonneg; lia).
  repeat split; try assumption; lia.
Qed.

Lemma approx_weaken (k k' : nat) (x : float) (S : Z) :
  (k <= k')%nat -> approx k x S -> approx k' x S.
Proof.
  intros Hk H. induction Hk as [|k' Hk IH]; [exact H|].
  apply approx_S, IH.
Qed.

Lemma pow_ratio_200 : 16777217 ^ 200 <= 2 * 16777216 ^ 200.
Proof. apply Z.leb_le. vm_compute. reflexivity. Qed.

Lemma pow_ratio (k : nat) :
  (k <= 200)%nat -> 16777217 ^ Z.of_nat k <= 2 * 16777216 ^ Z.of_nat k.
Proof.
  intros Hk.
  set (j := 200 - Z.of_nat k).
  pose proof (Z.pow_pos_nonneg 16777216 j ltac:(lia) ltac:(subst j; lia)) as Pj.
  pose proof (Z.pow_le_mono_l 16777216 16777217 j ltac:(lia)) as Mj.
  pose proof (Z.pow_pos_nonneg 16777217 (Z.of_nat k) ltac:(lia) ltac:(lia)) as Pk.
  pose proof pow_ratio_200 as R.
  replace 200 with (Z.of_nat k + j) in R by (subst j; lia).
  rewrite !Z.pow_add_r in R by (subst j; lia).
  set (a := 16777216 ^ Z.of_nat k) in *. set (c := 16777217 ^ Z.of_nat k) in *.
  set (aj := 16777216 ^ j) in *. set (cj := 16777217 ^ j) in *.
  assert (H1 : c * aj <= c * cj) by (apply Z.mul_le_mono_nonneg_l; lia).
  assert (H2 : c * aj <= 2 * a * aj) by lia.
  apply (Z.mul_le_mono_pos_r _ _ aj Pj). exact H2.
Qed.

Lemma approx_add (k : nat) (x y : float) (S T : Z) :
  approx k x S -> approx k y T ->
  (k <= 200)%nat -> S + T < 2 ^ 270 ->
  approx (Datatypes.S k) (f32_add x y) (S + T).
Proof.
  intros (Hx & HS & Xlo & Xhi) (Hy & HT & Ylo & Yhi) Hk Hsum.
  pose proof (val_nonneg x Hx) as Vx. pose proof (val_nonneg y Hy) as Vy.
  pose proof (Z.pow_pos_nonneg 16777215 (Z.of_nat k) ltac:(lia) ltac:(lia)) as Pm.
  pose proof (Z.pow_pos_nonneg 16777216 (Z.of_nat k) ltac:(lia) ltac:(lia)) as Pa.
  pose proof (Z.pow_pos_nonneg 16777217 (Z.of_nat k) ltac:(lia) ltac:(lia)) as Pp.
  pose proof (pow_ratio k Hk) as R.
  unfold approx. rewrite Nat2Z.inj_succ, !Z.pow_succ_r by lia.
  set (cm := 16777215 ^ Z.of_nat k) in *.
  set (a := 16777216 ^ Z.of_nat k) in *.
  set (cp := 16777217 ^ Z.of_nat k) in *.
  assert (G : val x + val y < 2 ^ 275).
  { change (2 ^ 275) with (2 * 2 ^ 270 * 16).
    set (B := 2 ^ 270) in *.
    assert (G1 : cp * (S + T) <= 2 * a * (S + T))
      by (apply Z.mul_le_mono_nonneg_r; lia).
    assert (G2 : a * (S + T) < a * B) by (apply Z.mul_lt_mono_pos_l; lia).
    assert (G3 : a * (val x + val y) < a * (2 * B)) by lia.
    apply Z.mul_lt_mono_pos_l in G3; lia. }
  destruct (f32_add_nonneg x y Hx Hy G) as [N E].
  set (v := val (f32_add x y)) in *.
  assert (E1 : 16777215 * (val x + val y) <= 16777216 * v) by lia.
  assert (E2 : 16777216 * v <= 16777217 * (val x + val y)) by lia.
  assert (A1 : a * (16777215 * (val x + val y)) <= a * (16777216 * v))
    by (apply Z.mul_le_mono_nonneg_l; lia).
  assert (A2 : a * (16777216 * v) <= a * (16777217 * (val x + val y)))
    by (apply Z.mul_le_mono_nonneg_l; lia).
  split; [exact N|]. split; [lia|]. split; lia.
Qed.

(** ** Squared differences of finite binary16 values *)

Lemma binary_round_normal_range (s : bool) (M : positive) (e : Z) :
  let d := Zpos (digits2_pos M) in
  -149 <= d + e - 24 -> d + e - 23 <= 104 ->
  exists (m' : positive) (e' : Z),
    binary_round 24 128 s M e = S754_finite s m' e' /\
    8388608 <= Zpos m' < 16777216 /\
    d + e - 24 <= e' <= d + e - 23.
Proof.
  intros d Hlo Hhi. unfold binary_round. fold d.
  rewrite fexp_normal by lia. unfold shl_align.
  pose proof (digits_bounds M) as [Dlo Dhi]. fold d in Dlo, Dhi.
  destruct (d + e - 24 - e) as [|p|p] eqn:En; cbv iota beta.
  - destruct (binary_round_aux_normal_ex s M e ltac:(fold d; lia)
                ltac:(fold d; lia) ltac:(fold d; lia))
      as (m' & e' & E & Hm' & He' & _).
    fold d in He'. exists m', e'. repeat split; (assumption || lia).
  - destruct (binary_round_aux_normal_ex s M e ltac:(fold d; lia)
                ltac:(fold d; lia) ltac:(fold d; lia))
      as (m' & e' & E & Hm' & He' & _).
    fold d in He'. exists m', e'. repeat split; (assumption || lia).
  - assert (D' : Zpos (digits2_pos (Pos.iter xO M p)) = 24).
    { apply digits_unique. rewrite shift_pos_mul.
      assert (Ep : Zpos p = 24 - d) by lia. rewrite Ep.
      split.
      - replace (24 - 1) with (d - 1 + (24 - d)) by lia.
        rewrite Z.pow_add_r by lia.
        apply Z.mul_le_mono_nonneg_r; [apply Z.pow_nonneg; lia|exact Dlo].
      - replace 24 with (d + (24 - d)) at 2 by lia.
        rewrite Z.pow_add_r by lia.
        apply Z.mul_lt_mono_pos_r; [apply Z.pow_pos_nonneg; lia|exact Dhi]. }
    destruct (binary_round_aux_normal_ex s (Pos.iter xO M p) (d + e - 24)
                ltac:(rewrite D'; lia) ltac:(rewrite D'; lia)
                ltac:(rewrite D'; lia))
      as (m' & e' & E & Hm' & He' & _).
    rewrite D' in He'. exists m', e'. repeat split; (assumption || lia).
Qed.

Lemma half_image_cases (x : float) :
  half_image x = true ->
  (exists s, x = S754_zero s) \/
  (exists s m e, x = S754_finite s m e /\
                 8388608 <= Zpos m < 16777216 /\ -47 <= e <= -8).
Proof.
  destruct x as [s|s| |s m e]; cbn [half_image]; intros H; try discriminate.
  - left. now exists s.
  - right. exists s, m, e.
    rewrite !andb_true_iff in H. destruct H as [[[H1 H2] H3] H4].
    apply Z.leb_le in H1, H3, H4. apply Z.ltb_lt in H2. repeat split; lia.
Qed.

Lemma f32_sub_half_images (x y : float) :
  half_image x = true -> half_image y = true -> small_diff (f32_sub x y).
Proof.
  intros Hx Hy.
  destruct (half_image_cases x Hx) as [[sx ->]|(sx & mx & ex & -> & Hmx & Hex)];
  destruct (half_image_cases y Hy) as [[sy ->]|(sy & my & ey & -> & Hmy & Hey)].
  - left. destruct sx, sy; eexists; reflexivity.
  - right. exists (negb sy), my, ey. repeat split; lia.
  - right. exists sx, mx, ex. repeat split; lia.
  - unfold f32_sub, SFsub.
    set (ez := Z.min ex ey).
    assert (Hez : ez <= ex /\ ez <= ey /\ -47 <= ez <= -8
                  /\ (ez = ex \/ ez = ey)) by (subst ez; lia).
    rewrite !shl_align_val by lia.
    set (X := Zpos mx * 2 ^ (ex - ez)). set (Y := Zpos my * 2 ^ (ey - ez)).
    set (K := Z.max ex ey - ez).
    assert (HK : 0 <= K /\ ex - ez <= K /\ ey - ez <= K /\ K + ez <= -8)
      by (subst K; lia).
    assert (HX : 0 < X < 16777216 * 2 ^ K).
    { subst X. pose proof (Z.pow_pos_nonneg 2 (ex - ez) ltac:(lia) ltac:(lia)).
      pose proof (Z.pow_le_mono_r 2 (ex - ez) K ltac:(lia) ltac:(lia)). nia. }
    assert (HY : 0 < Y < 16777216 * 2 ^ K).
    { subst Y. pose proof (Z.pow_pos_nonneg 2 (ey - ez) ltac:(lia) ltac:(lia)).
      pose proof (Z.pow_le_mono_r 2 (ey - ez) K ltac:(lia) ltac:(lia)). nia. }
    assert (HZ : Z.abs (cond_Zopp sx X - cond_Zopp sy Y) < 2 ^ (25 + K)).
    { rewrite Z.pow_add_r by lia. change (2 ^ 25) with 33554432.
      destruct sx, sy; cbn [cond_Zopp]; lia. }
    clearbody X Y.
    destruct (cond_Zopp sx X - cond_Zopp sy Y) as [|M|M] eqn:EZ;
      cbn [binary_normalize].
    + left. now exists false.
    + right. cbn [Z.abs] in HZ.
      pose proof (digits_le M (25 + K) ltac:(lia) HZ) as Dle.
      pose proof (digits_bounds M) as [Dlo _].
      assert (1 <= Zpos (digits2_pos M)) by lia.
      destruct (binary_round_normal_range false M ez ltac:(lia) ltac:(lia))
        as (m' & e' & -> & Hm' & He').
      exists false, m', e'. repeat split; lia.
    + right. cbn [Z.abs] in HZ.
      pose proof (digits_le M (25 + K) ltac:(lia) HZ) as Dle.
      assert (1 <= Zpos (digits2_pos M)) by lia.
      destruct (binary_round_normal_range true M ez ltac:(lia) ltac:(lia))
        as (m' & e' & -> & Hm' & He').
      exists true, m', e'. repeat split; lia.
Qed.

Lemma f32_mul_small_diff (d : float) :
  small_diff d ->
  nonneg (f32_mul d d) /\ val (f32_mul d d) < 2 ^ 186.
Proof.
  intros [[s ->]|(s & m & e & -> & Hm & He)].
  - destruct s; cbn; (split; [now left|lia]).
  - unfold f32_mul, SFmul. rewrite xorb_nilpotent.
    assert (Hmm : 2 ^ 46 <= Zpos (m * m) < 2 ^ 48).
    { rewrite Pos2Z.inj_mul. change (2 ^ 46) with (8388608 * 8388608).
      change (2 ^ 48) with (16777216 * 16777216). nia. }
    pose proof (digits_ge (m * m) 47 ltac:(change (47 - 1) with 46; lia)) as D1.
    pose proof (digits_le (m * m) 48 ltac:(lia) ltac:(lia)) as D2.
    destruct (binary_round_aux_normal_ex false (m * m) (e + e)
                ltac:(lia) ltac:(lia) ltac:(lia))
      as (m' & e' & -> & Hm' & He' & _).
    split.
    + right. cbn [pos_normal]. lia.
    + cbn [val cond_Zopp].
      assert (P : 2 ^ (e' + 149) <= 2 ^ 162)
        by (apply Z.pow_le_mono_r; lia).
      pose proof (Z.pow_pos_nonneg 2 (e' + 149) ltac:(lia) ltac:(lia)).
      change (2 ^ 186) with (16777216 * 2 ^ 162).
      set (Q1 := 2 ^ (e' + 149)) in *. set (Q2 := 2 ^ 162) in *. nia.
Qed.

Lemma sq_diff_nonneg (vec1 vec2 : buffer) (i : Z) :
  finite_half (half_at vec1 i) = true ->
  finite_half (half_at vec2 i) = true ->
  nonneg (sq_diff vec1 vec2 i) /\ val (sq_diff vec1 vec2 i) < 2 ^ 186.
Proof.
  intros H1 H2. unfold sq_diff.
  apply f32_mul_small_diff, f32_sub_half_images;
    apply cvtph_half_image; (apply half_at_range || assumption).
Qed.

(** ** Sums of nonnegative terms *)

Lemma sumZ_app (l1 l2 : list Z) : sumZ (l1 ++ l2) = sumZ l1 + sumZ l2.
Proof.
  induction l1 as [|z l1 IH]; cbn [app sumZ fold_right].
  - reflexivity.
  - fold (sumZ (l1 ++ l2)). fold (sumZ l1). rewrite IH. ring.
Qed.

Lemma sumZ_bound {A : Type} (t : A -> Z) (B : Z) (l : list A) :
  (forall j, In j l -> 0 <= t j < B) ->
  0 <= sumZ (map t l) <= B * Z.of_nat (length l).
Proof.
  induction l as [|j l IH]; intros H.
  - cbn. lia.
  - cbn [map sumZ fold_right length]. fold (sumZ (map t l)).
    pose proof (H j (or_introl eq_refl)).
    specialize (IH (fun j' Hj' => H j' (or_intror Hj'))). lia.
Qed.

Lemma approx_fold {A : Type} (g : A -> float) (l : list A) :
  (forall j, In j l -> nonneg (g j) /\ val (g j) < 2 ^ 186) ->
  forall (k : nat) (x : float) (S : Z),
    approx k x S ->
    (k + length l <= 200)%nat ->
    S + 2 ^ 186 * Z.of_nat (length l) < 2 ^ 270 ->
    approx (k + length l)
           (fold_left (fun x j => f32_add x (g j)) l x)
           (S + sumZ (map (fun j => val (g j)) l)).
Proof.
  induction l as [|j l IH]; intros Hg k x S Hx Hk Hb.
  - cbn [length fold_left map sumZ fold_right].
    rewrite Nat.add_0_r, Z.add_0_r. exact Hx.
  - cbn [length fold_left map sumZ fold_right] in *.
    fold (sumZ (map (fun j => val (g j)) l)).
    destruct (Hg j (or_introl eq_refl)) as [Nj Bj].
    pose proof (val_nonneg _ Nj) as Vj.
    rewrite <- plus_n_Sm, Z.add_assoc.
    change (Datatypes.S (k + length l)) with (Datatypes.S k + length l)%nat.
    apply IH.
    + intros j' Hj'. apply Hg. now right.
    + apply approx_add; try lia.
      * exact Hx.
      * apply (approx_weaken 0 k); [lia|]. now apply approx_exact.
    + lia.
    + lia.
Qed.

Lemma approx_zero : approx 0 f32_zero 0.
Proof. apply (approx_exact f32_zero). now left. Qed.

Lemma lane_sum_S (t : Z -> Z) (n k : nat) :
  lane_sum t (S n) k = lane_sum t n k + t (8 * Z.of_nat n + Z.of_nat k).
Proof.
  unfold lane_sum. rewrite seq_S, map_app, sumZ_app. cbn. lia.
Qed.

(** The terms of the eight lanes are the terms of the whole vector. *)
Lemma sum_by_lanes (t : Z -> Z) (n : nat) :
  sumZ (map (fun i => t (Z.of_nat i)) (seq 0 (8 * n)))
  = lane_sum t n 0 + lane_sum t n 1 + lane_sum t n 2 + lane_sum t n 3
    + lane_sum t n 4 + lane_sum t n 5 + lane_sum t n 6 + lane_sum t n 7.
Proof.
  induction n as [|n IH].
  - reflexivity.
  - replace (8 * S n)%nat with (8 * n + 8)%nat by lia.
    rewrite seq_app, map_app, sumZ_app, IH, !lane_sum_S.
    cbn [seq map sumZ fold_right Nat.add].
    replace (Z.of_nat (8 * n)) with (8 * Z.of_nat n + Z.of_nat 0) by lia.
    replace (Z.of_nat (S (8 * n))) with (8 * Z.of_nat n + Z.of_nat 1) by lia.
    replace (Z.of_nat (S (S (8 * n)))) with (8 * Z.of_nat n + Z.of_nat 2) by lia.
    replace (Z.of_nat (S (S (S (8 * n))))) with (8 * Z.of_nat n + Z.of_nat 3) by lia.
    replace (Z.of_nat (S (S (S (S (8 * n)))))) with (8 * Z.of_nat n + Z.of_nat 4) by lia.
    replace (Z.of_nat (S (S (S (S (S (8 * n))))))) with (8 * Z.of_nat n + Z.of_nat 5) by lia.
    replace (Z.of_nat (S (S (S (S (S (S (8 * n)))))))) with (8 * Z.of_nat n + Z.of_nat 6) by lia.
    replace (Z.of_nat (S (S (S (S (S (S (S (8 * n))))))))) with (8 * Z.of_nat n + Z.of_nat 7) by lia.
    ring.
Qed.

(** ** 148 roundings stay within [10^-5] *)

Lemma close_of_approx (r b : float) (S : Z) :
  approx 20 r S -> approx 128 b S -> within_1e5 r b.
Proof.
  intros (Nr & HS & Rlo & Rhi) (Nb & _ & Blo & Bhi).
  pose proof (val_nonneg r Nr) as Vr. pose proof (val_nonneg b Nb) as Vb.
  assert (Fr : is_finite r = true).
  { destruct Nr as [->|Nr]; [reflexivity|]. destruct r; (reflexivity || contradiction). }
  assert (Fb : is_finite b = true).
  { destruct Nb as [->|Nb]; [reflexivity|]. destruct b; (reflexivity || contradiction). }
  split; [exact Fr|]. split; [exact Fb|].
  set (R := val r) in *. set (B := val b) in *. clearbody R B.
  change (Z.of_nat 20) with 20 in *. change (Z.of_nat 128) with 128 in *.
  let c := eval vm_compute in (16777215 ^ 20) in change (16777215 ^ 20) with c in *.
  let c := eval vm_compute in (16777216 ^ 20) in change (16777216 ^ 20) with c in *.
  let c := eval vm_compute in (16777217 ^ 20) in change (16777217 ^ 20) with c in *.
  let c := eval vm_compute in (16777215 ^ 128) in change (16777215 ^ 128) with c in *.
  let c := eval vm_compute in (16777216 ^ 128) in change (16777216 ^ 128) with c in *.
  let c := eval vm_compute in (16777217 ^ 128) in change (16777217 ^ 128) with c in *.
  lia.
Qed.

(** ** The kernel against the brute-force sum *)

Lemma distance_run_whole_groups (u : indeterminate) (fuel : nat)
  (vec1 vec2 : buffer) (size : Z) :
  8 <= size -> size mod 8 = 0 ->
  2 * size <= Z.of_nat (length vec1) ->
  2 * size <= Z.of_nat (length vec2) ->
  2 * size <= SIZE_MAX1 ->
  size / 8 < Z.of_nat fuel ->
  distance_run u fuel vec1 vec2 size
  = Ret (lanewise_sum vec1 vec2 size, group_events 0 (Z.to_nat (size / 8))).
Proof.
  intros H8 Hmod L1 L2 Haddr Hfuel.
  pose proof (Z.div_mod size 8 ltac:(lia)) as Hdm.
  destruct (main_loop_run vec1 vec2 size ltac:(lia) L1 L2
              (Z.to_nat (size / 8)) fuel 0%nat initial)
    as (s' & Hrun & Hi & Ht & Ha); try (cbn [idx initial]; lia).
  unfold distance_run. rewrite Hrun. cbn [bind].
  destruct fuel as [|fuel]; [lia|].
  rewrite remainder_loop_done by lia. cbn [bind].
  rewrite Ht, Ha by lia. cbn [initial acc trace app].
  now rewrite hsum_add_groups.
Qed.

Section FiniteVectors.
Variables vec1 vec2 : buffer.
Variable n : nat.
Hypothesis n_small : (n <= 16)%nat.
Hypothesis finite1 :
  forall i, 0 <= i < 8 * Z.of_nat n -> finite_half (half_at vec1 i) = true.
Hypothesis finite2 :
  forall i, 0 <= i < 8 * Z.of_nat n -> finite_half (half_at vec2 i) = true.

Let t (z : Z) : Z := val (sq_diff vec1 vec2 z).

Lemma lane_sum_bound (k : nat) :
  (k < 8)%nat -> 0 <= lane_sum t n k <= 2 ^ 186 * 16.
Proof.
  intros Hk. unfold lane_sum.
  pose proof (sumZ_bound (fun j => t (8 * Z.of_nat j + Z.of_nat k)) (2 ^ 186)
                (seq 0 n)) as B.
  rewrite length_seq in B.
  assert (P : 0 < 2 ^ 186) by (apply Z.pow_pos_nonneg; lia).
  assert (H : forall j, In j (seq 0 n) ->
                0 <= t (8 * Z.of_nat j + Z.of_nat k) < 2 ^ 186).
  { intros j Hj. apply in_seq in Hj. unfold t.
    destruct (sq_diff_nonneg vec1 vec2 (8 * Z.of_nat j + Z.of_nat k))
      as [N V]; [apply finite1; lia|apply finite2; lia|].
    split; [now apply val_nonneg|exact V]. }
  specialize (B H).
  assert (2 ^ 186 * Z.of_nat n <= 2 ^ 186 * 16)
    by (apply Z.mul_le_mono_nonneg_l; lia).
  lia.
Qed.

Lemma lane_total_approx (k : nat) :
  (k < 8)%nat ->
  approx n (lane_total vec1 vec2 n k) (lane_sum t n k).
Proof.
  intros Hk. unfold lane_total, lane_sum.
  pose proof (approx_fold
                (fun j => sq_diff vec1 vec2 (8 * Z.of_nat j + Z.of_nat k))
                (seq 0 n)) as F.
  rewrite length_seq in F.
  apply (F ltac:(intros j Hj; apply in_seq in Hj;
                 apply sq_diff_nonneg; [apply finite1|apply finite2]; lia)
           0%nat f32_zero 0 approx_zero ltac:(lia)).
  assert (2 ^ 186 * Z.of_nat n <= 2 ^ 186 * 16)
    by (apply Z.mul_le_mono_nonneg_l; lia).
  change (2 ^ 270) with (2 ^ 186 * 2 ^ 84).
  assert (2 ^ 186 * 16 < 2 ^ 186 * 2 ^ 84)
    by (apply Z.mul_lt_mono_pos_l; [apply Z.pow_pos_nonneg; lia|reflexivity]).
  lia.
Qed.

Lemma brute_force_approx :
  approx (8 * n) (brute_force vec1 vec2 (8 * Z.of_nat n))
         (sumZ (map (fun i => t (Z.of_nat i)) (seq 0 (8 * n)))).
Proof.
  unfold brute_force.
  replace (Z.to_nat (8 * Z.of_nat n)) with (8 * n)%nat by lia.
  pose proof (approx_fold (fun i => sq_diff vec1 vec2 (Z.of_nat i))
                (seq 0 (8 * n))) as F.
  rewrite length_seq in F.
  apply (F ltac:(intros j Hj; apply in_seq in Hj;
                 apply sq_diff_nonneg; [apply finite1|apply finite2]; lia)
           0%nat f32_zero 0 approx_zero ltac:(lia)).
  assert (2 ^ 186 * Z.of_nat (8 * n) <= 2 ^ 186 * 128)
    by (apply Z.mul_le_mono_nonneg_l; lia).
  change (2 ^ 270) with (2 ^ 186 * 2 ^ 84).
  assert (2 ^ 186 * 128 < 2 ^ 186 * 2 ^ 84)
    by (apply Z.mul_lt_mono_pos_l; [apply Z.pow_pos_nonneg; lia|reflexivity]).
  lia.
Qed.

Lemma lanewise_sum_approx :
  approx (n + 4) (lanewise_sum vec1 vec2 (8 * Z.of_nat n))
         (sumZ (map (fun i => t (Z.of_nat i)) (seq 0 (8 * n)))).
Proof.
  rewrite sum_by_lanes. unfold lanewise_sum.
  replace (Z.to_nat (8 * Z.of_nat n / 8)) with n
    by (rewrite Z.mul_comm, Z.div_mul by lia; lia).
  pose proof (lane_total_approx 0 ltac:(lia)) as A0.
  pose proof (lane_total_approx 1 ltac:(lia)) as A1.
  pose proof (lane_total_approx 2 ltac:(lia)) as A2.
  pose proof (lane_total_approx 3 ltac:(lia)) as A3.
  pose proof (lane_total_approx 4 ltac:(lia)) as A4.
  pose proof (lane_total_approx 5 ltac:(lia)) as A5.
  pose proof (lane_total_approx 6 ltac:(lia)) as A6.
  pose proof (lane_total_approx 7 ltac:(lia)) as A7.
  pose proof (lane_sum_bound 0 ltac:(lia)) as B0.
  pose proof (lane_sum_bound 1 ltac:(lia)) as B1.
  pose proof (lane_sum_bound 2 ltac:(lia)) as B2.
  pose proof (lane_sum_bound 3 ltac:(lia)) as B3.
  pose proof (lane_sum_bound 4 ltac:(lia)) as B4.
  pose proof (lane_sum_bound 5 ltac:(lia)) as B5.
  pose proof (lane_sum_bound 6 ltac:(lia)) as B6.
  pose proof (lane_sum_bound 7 ltac:(lia)) as B7.
  assert (Big : 2 ^ 186 * 16 * 8 < 2 ^ 270) by reflexivity.
  set (U := 2 ^ 186 * 16) in *. set (V := 2 ^ 270) in *.
  set (L := lane_total vec1 vec2 n) in *.
  set (s := lane_sum t n) in *.
  pose proof (approx_add n _ _ _ _ A0 A4 ltac:(lia) ltac:(lia)) as P04.
  pose proof (approx_add n _ _ _ _ A1 A5 ltac:(lia) ltac:(lia)) as P15.
  pose proof (approx_add n _ _ _ _ A2 A6 ltac:(lia) ltac:(lia)) as P26.
  pose proof (approx_add n _ _ _ _ A3 A7 ltac:(lia) ltac:(lia)) as P37.
  pose proof (approx_add (S n) _ _ _ _ P04 P15 ltac:(lia) ltac:(lia)) as Q1.
  pose proof (approx_add (S (S n)) _ _ _ _ Q1
                (approx_weaken (S n) (S (S n)) _ _ ltac:(lia) P26)
                ltac:(lia) ltac:(lia)) as Q2.
  pose proof (approx_add (S (S (S n))) _ _ _ _ Q2
                (approx_weaken (S n) (S (S (S n))) _ _ ltac:(lia) P37)
                ltac:(lia) ltac:(lia)) as Q3.
  replace (n + 4)%nat with (S (S (S (S n)))) by lia.
  replace (s 0%nat + s 1%nat + s 2%nat + s 3%nat + s 4%nat + s 5%nat
           + s 6%nat + s 7%nat)
    with (s 0%nat + s 4%nat + (s 1%nat + s 5%nat) + (s 2%nat + s 6%nat)
          + (s 3%nat + s 7%nat)) by ring.
  exact Q3.
Qed.

Lemma lanewise_close_to_brute_force :
  within_1e5 (lanewise_sum vec1 vec2 (8 * Z.of_nat n))
             (brute_force vec1 vec2 (8 * Z.of_nat n)).
Proof.
  apply close_of_approx
    with (S := sumZ (map (fun i => t (Z.of_nat i)) (seq 0 (8 * n)))).
  - apply (approx_weaken (n + 4)); [lia|apply lanewise_sum_approx].
  - apply (approx_weaken (8 * n)); [lia|apply brute_force_approx].
Qed.
End FiniteVectors.

Lemma one_to_seven_nine_finite (i : Z) :
  0 <= i < 8 -> finite_half (half_at one_to_seven_nine i) = true.
Proof.
  intros H.
  assert (E : i = 0 \/ i = 1 \/ i = 2 \/ i = 3 \/ i = 4 \/ i = 5 \/ i = 6 \/ i = 7)
    by lia.
  repeat (destruct E as [-> | E]; [reflexivity|]). subst i. reflexivity.
Defined.

(** X10. For at most 128 finite elements in whole groups, the kernel's result
    is within relative error [10^-5] of the brute-force binary32 sum taken
    in element order: the two add the same squared differences, in
    different orders, through at most 20 and 128 roundings. *)
Theorem distance_close_to_brute_force (u : indeterminate) (fuel : nat)
  (vec1 vec2 : buffer) (size : Z) :
  8 <= size <= 128 -> size mod 8 = 0 ->
  2 * size <= Z.of_nat (length vec1) ->
  2 * size <= Z.of_nat (length vec2) ->
  size / 8 < Z.of_nat fuel ->
  (forall i, 0 <= i < size -> finite_half (half_at vec1 i) = true) ->
  (forall i, 0 <= i < size -> finite_half (half_at vec2 i) = true) ->
  exists r : float,
    distance u fuel vec1 vec2 size = Ret r /\
    within_1e5 r (brute_force vec1 vec2 size).
Proof.
  intros Hs Hmod L1 L2 Hfuel F1 F2.
  exists (lanewise_sum vec1 vec2 size). split.
  - unfold distance.
    rewrite distance_run_whole_groups;
      try assumption; try (rewrite ?SIZE_MAX1_eq; lia).
    reflexivity.
  - pose proof (Z.div_mod size 8 ltac:(lia)) as Hdm.
    assert (E : size = 8 * Z.of_nat (Z.to_nat (size / 8))) by lia.
    rewrite E.
    apply lanewise_close_to_brute_force.
    + lia.
    + intros i Hi. apply F1. lia.
    + intros i Hi. apply F2. lia.
Qed.

Lemma distance_close_to_brute_force_witness :
  (8 <= 8 <= 128 /\ 8 mod 8 = 0 /\
   2 * 8 <= Z.of_nat (length one_to_eight) /\
   2 * 8 <= Z.of_nat (length one_to_seven_nine) /\
   8 / 8 < Z.of_nat 2 /\
   (forall i, 0 <= i < 8 -> finite_half (half_at one_to_eight i) = true) /\
   (forall i, 0 <= i < 8 -> finite_half (half_at one_to_seven_nine i) = true)) /\
  exists r : float,
    distance zero_hi 2 one_to_eight one_to_seven_nine 8 = Ret r /\
    within_1e5 r (brute_force one_to_eight one_to_seven_nine 8).
Proof.
  assert (H : 8 <= 8 <= 128 /\ 8 mod 8 = 0 /\
   2 * 8 <= Z.of_nat (length one_to_eight) /\
   2 * 8 <= Z.of_nat (length one_to_seven_nine) /\
   8 / 8 < Z.of_nat 2) by (cbn; lia).
  destruct H as (H1 & H2 & H3 & H4 & H5).
  split.
  - repeat split; try assumption; try lia.
    + exact one_to_eight_finite.
    + exact one_to_seven_nine_finite.
  - exact (distance_close_to_brute_force zero_hi 2 one_to_eight
             one_to_seven_nine 8 H1 H2 H3 H4 H5
             one_to_eight_finite one_to_seven_nine_finite).
Defined.

(** Beyond that length the bound is lost: on 512 finite elements, one
    large squared difference followed by small ones, the element-order sum
    absorbs every small term and the kernel's seven other lanes do not. *)
Example distance_far_from_brute_force_512 :
  distance zero_hi 65 big_then_small minus_big_then_zeros 512
  = Ret (S754_finite false 16761060 10) /\
  brute_force big_then_small minus_big_then_zeros 512
  = S754_finite false 16760836 10 /\
  ~ within_1e5 (S754_finite false 16761060 10) (S754_finite false 16760836 10).
Proof.
  split; [vm_compute; reflexivity|]. split; [vm_compute; reflexivity|].
  intros (_ & _ & H). vm_compute in H. apply H. reflexivity.
Qed.

(** ** A broadcast square in the reduction *)

(** X11. A square added by [_mm256_set1_ps] to all eight lanes is counted
    eight times by the reduction: if the lanes stand for the reals
    [S0 .. S7] up to [k] roundings, the reduced sum stands for
    [S0 + ... + S7 + 8 * sq] up to [k + 5] roundings. *)
Theorem broadcast_square_counts_eight_times (k : nat)
  (a0 a1 a2 a3 a4 a5 a6 a7 sq : float) (S0 S1 S2 S3 S4 S5 S6 S7 : Z) :
  approx k a0 S0 -> approx k a1 S1 -> approx k a2 S2 -> approx k a3 S3 ->
  approx k a4 S4 -> approx k a5 S5 -> approx k a6 S6 -> approx k a7 S7 ->
  nonneg sq -> (k <= 190)%nat ->
  S0 + S1 + S2 + S3 + S4 + S5 + S6 + S7 + 8 * val sq < 2 ^ 270 ->
  approx (k + 5)
    (hsum (_mm256_add_ps [a0; a1; a2; a3; a4; a5; a6; a7] (_mm256_set1_ps sq)))
    (S0 + S1 + S2 + S3 + S4 + S5 + S6 + S7 + 8 * val sq).
Proof.
  intros A0 A1 A2 A3 A4 A5 A6 A7 Nsq Hk Hb.
  pose proof (val_nonneg sq Nsq) as Vsq.
  assert (Asq : approx k sq (val sq))
    by (apply (approx_weaken 0 k); [lia|now apply approx_exact]).
  assert (P0 := proj1 (proj2 A0)). assert (P1 := proj1 (proj2 A1)).
  assert (P2 := proj1 (proj2 A2)). assert (P3 := proj1 (proj2 A3)).
  assert (P4 := proj1 (proj2 A4)). assert (P5 := proj1 (proj2 A5)).
  assert (P6 := proj1 (proj2 A6)). assert (P7 := proj1 (proj2 A7)).
  set (B := 2 ^ 270) in *.
  pose proof (approx_add k _ _ _ _ A0 Asq ltac:(lia) ltac:(lia)) as L0.
  pose proof (approx_add k _ _ _ _ A1 Asq ltac:(lia) ltac:(lia)) as L1.
  pose proof (approx_add k _ _ _ _ A2 Asq ltac:(lia) ltac:(lia)) as L2.
  pose proof (approx_add k _ _ _ _ A3 Asq ltac:(lia) ltac:(lia)) as L3.
  pose proof (approx_add k _ _ _ _ A4 Asq ltac:(lia) ltac:(lia)) as L4.
  pose proof (approx_add k _ _ _ _ A5 Asq ltac:(lia) ltac:(lia)) as L5.
  pose proof (approx_add k _ _ _ _ A6 Asq ltac:(lia) ltac:(lia)) as L6.
  pose proof (approx_add k _ _ _ _ A7 Asq ltac:(lia) ltac:(lia)) as L7.
  pose proof (approx_add (S k) _ _ _ _ L0 L4 ltac:(lia) ltac:(lia)) as P04.
  pose proof (approx_add (S k) _ _ _ _ L1 L5 ltac:(lia) ltac:(lia)) as P15.
  pose proof (approx_add (S k) _ _ _ _ L2 L6 ltac:(lia) ltac:(lia)) as P26.
  pose proof (approx_add (S k) _ _ _ _ L3 L7 ltac:(lia) ltac:(lia)) as P37.
  pose proof (approx_add (S (S k)) _ _ _ _ P04 P15 ltac:(lia) ltac:(lia)) as Q1.
  pose proof (approx_add (S (S (S k))) _ _ _ _ Q1
                (approx_weaken (S (S k)) (S (S (S k))) _ _ ltac:(lia) P26)
                ltac:(lia) ltac:(lia)) as Q2.
  pose proof (approx_add (S (S (S (S k)))) _ _ _ _ Q2
                (approx_weaken (S (S k)) (S (S (S (S k)))) _ _ ltac:(lia) P37)
                ltac:(lia) ltac:(lia)) as Q3.
  replace (k + 5)%nat with (S (S (S (S (S k))))) by lia.
  replace (S0 + S1 + S2 + S3 + S4 + S5 + S6 + S7 + 8 * val sq)
    with (S0 + val sq + (S4 + val sq) + (S1 + val sq + (S5 + val sq))
          + (S2 + val sq + (S6 + val sq)) + (S3 + val sq + (S7 + val sq)))
    by ring.
  exact Q3.
Qed.

Lemma broadcast_square_counts_eight_times_witness :
  (approx 0 f32_zero 0 /\ nonneg (S754_finite false 8388608 (-23)) /\
   (0 <= 190)%nat /\
   0 + 0 + 0 + 0 + 0 + 0 + 0 + 0 + 8 * val (S754_finite false 8388608 (-23))
   < 2 ^ 270) /\
  approx (0 + 5)
    (hsum (_mm256_add_ps
             [f32_zero; f32_zero; f32_zero; f32_zero;
              f32_zero; f32_zero; f32_zero; f32_zero]
             (_mm256_set1_ps (S754_finite false 8388608 (-23)))))
    (0 + 0 + 0 + 0 + 0 + 0 + 0 + 0 + 8 * val (S754_finite false 8388608 (-23))).
Proof.
  assert (N : nonneg (S754_finite false 8388608 (-23)))
    by (right; cbn; lia).
  assert (K : (0 <= 190)%nat) by lia.
  assert (B : 0 + 0 + 0 + 0 + 0 + 0 + 0 + 0
              + 8 * val (S754_finite false 8388608 (-23)) < 2 ^ 270)
    by reflexivity.
  split; [exact (conj approx_zero (conj N (conj K B)))|].
  exact (broadcast_square_counts_eight_times 0 _ _ _ _ _ _ _ _ _ _ _ _ _ _ _ _ _
           approx_zero approx_zero approx_zero approx_zero
           approx_zero approx_zero approx_zero approx_zero N K B).
Defined.

(** * Further properties of the kernel and of its helper *)

(** ** [load_128bit_to_256bit] *)

Lemma loadn_length (n : nat) (p : buffer) :
  forall (off : Z) (bs : list Z), loadn n p off = Some bs -> length bs = n.
Proof.
  induction n as [|n IH]; intros off bs H; cbn [loadn] in H.
  - injection H as <-. reflexivity.
  - destruct (read p off); [|discriminate].
    destruct (loadn n p (off + 1)) eqn:E; [|discriminate].
    injection H as <-. cbn [length]. f_equal. eapply IH, E.
Qed.

Lemma loadn_out_of_bounds (n : nat) (p : buffer) :
  forall off : Z,
    (0 < n)%nat -> 0 <= off -> Z.of_nat (length p) < off + Z.of_nat n ->
    loadn n p off = None.
Proof.
  induction n as [|n IH]; intros off Hn H0 H; [lia|].
  cbn [loadn].
  destruct (Z.le_gt_cases (Z.of_nat (length p)) off) as [Hout|Hin].
  - now rewrite read_out_of_bounds.
  - rewrite IH by lia. now destruct (read p off).
Qed.

Lemma le_value_app_zeros (bs : list Z) (n : nat) :
  le_value (bs ++ repeat 0 n) = le_value bs.
Proof.
  induction bs as [|b bs IH]; cbn [app le_value].
  - induction n as [|n IHn]; cbn [repeat le_value]; lia.
  - rewrite IH. reflexivity.
Qed.

(** X1. Whenever sixteen bytes can be read at the address, the helper returns
    them followed by sixteen zero bytes, whatever the cast left in the
    upper half: the 256-bit value is the 128-bit value, zero-extended. *)
Theorem load_128bit_to_256bit_zero_extends (upper : list Z) (p : buffer)
  (off : Z) :
  0 <= off -> off + 16 <= Z.of_nat (length p) ->
  exists value128 : m128i,
    _mm_loadu_si128 p off = Some value128 /\
    length value128 = 16%nat /\
    load_128bit_to_256bit upper p off = Some (value128 ++ repeat 0 16) /\
    le_value (value128 ++ repeat 0 16) = le_value value128.
Proof.
  intros H0 H. unfold load_128bit_to_256bit.
  destruct (_mm_loadu_si128 p off) as [v|] eqn:E.
  - pose proof (loadn_length 16 p off v E) as Lv.
    exists v. split; [reflexivity|]. split; [exact Lv|]. split.
    + unfold _mm256_castsi128_si256, _mm256_inserti128_si256, _mm_setzero_si128.
      rewrite firstn_app, Lv, Nat.sub_diag, firstn_O, app_nil_r.
      rewrite firstn_all2 by lia. reflexivity.
    + apply le_value_app_zeros.
  - unfold _mm_loadu_si128 in E.
    rewrite loadn_in_bounds in E by (change (Z.of_nat 16) with 16; lia).
    discriminate.
Qed.

Lemma load_128bit_to_256bit_zero_extends_witness :
  (0 <= 0 /\ 0 + 16 <= Z.of_nat (length one_to_eight)) /\
  exists value128 : m128i,
    _mm_loadu_si128 one_to_eight 0 = Some value128 /\
    length value128 = 16%nat /\
    load_128bit_to_256bit [] one_to_eight 0 = Some (value128 ++ repeat 0 16) /\
    le_value (value128 ++ repeat 0 16) = le_value value128.
Proof.
  assert (H : 0 <= 0 /\ 0 + 16 <= Z.of_nat (length one_to_eight)) by (cbn; lia).
  split; [exact H|]. destruct H as [H1 H2].
  exact (load_128bit_to_256bit_zero_extends [] one_to_eight 0 H1 H2).
Defined.

(** X2. The helper fails exactly when fewer than sixteen bytes remain at the
    address. *)
Theorem load_128bit_to_256bit_faults_iff (upper : list Z) (p : buffer)
  (off : Z) :
  0 <= off ->
  (load_128bit_to_256bit upper p off = None
   <-> Z.of_nat (length p) < off + 16).
Proof.
  intros H0. unfold load_128bit_to_256bit, _mm_loadu_si128. split.
  - intros H.
    destruct (Z.lt_ge_cases (Z.of_nat (length p)) (off + 16)) as [|Hin];
      [assumption|].
    rewrite loadn_in_bounds in H by (change (Z.of_nat 16) with 16; lia).
    discriminate.
  - intros H. rewrite loadn_out_of_bounds; [reflexivity|lia|exact H0|].
    change (Z.of_nat 16) with 16. lia.
Qed.

Lemma load_128bit_to_256bit_faults_iff_witness :
  0 <= 1 /\
  (load_128bit_to_256bit [] one_to_eight 1 = None
   <-> Z.of_nat (length one_to_eight) < 1 + 16).
Proof.
  assert (H : 0 <= 1) by lia.
  split; [exact H|].
  exact (load_128bit_to_256bit_faults_iff [] one_to_eight 1 H).
Defined.

(** ** Sizes and buffers the kernel cannot handle *)

(** X3. For every size below 8 the kernel never returns: the bound
    [size - 8] wraps around and the vectorized loop can only end in a read
    outside the buffers. *)
Theorem distance_below_group_width_never_returns (u : indeterminate)
  (fuel : nat) (vec1 vec2 : buffer) (size : Z) (r : float) :
  0 <= size < 8 -> distance u fuel vec1 vec2 size <> Ret r.
Proof.
  intros Hsize. unfold distance, distance_run.
  destruct (main_loop fuel vec1 vec2 size initial) as [s| |] eqn:E;
    cbn [bind]; try discriminate.
  exfalso. revert E. apply main_loop_small_size; cbn [initial idx].
  - exact Hsize.
  - reflexivity.
  - rewrite SIZE_MAX1_eq. lia.
Qed.

Lemma distance_below_group_width_never_returns_witness :
  0 <= 7 < 8 /\
  distance zero_hi 9 one_to_eight one_to_eight 7 <> Ret f32_zero.
Proof.
  assert (H : 0 <= 7 < 8) by lia.
  split; [exact H|].
  exact (distance_below_group_width_never_returns zero_hi 9 one_to_eight
           one_to_eight 7 f32_zero H).
Defined.

(** X4. Whatever the size, the first iteration of the vectorized loop runs
    and loads sixteen bytes from each buffer: a buffer shorter than that
    is read out of bounds. *)
Theorem distance_always_reads_16_bytes (u : indeterminate) (fuel : nat)
  (vec1 vec2 : buffer) (size : Z) :
  0 <= size < SIZE_MAX1 ->
  Z.of_nat (length vec1) < 16 \/ Z.of_nat (length vec2) < 16 ->
  distance u (S fuel) vec1 vec2 size = Fault.
Proof.
  intros Hsize Hshort. unfold distance, distance_run.
  cbn [main_loop initial idx].
  assert (E : (0 <=? wrap (size - 8)) = true)
    by (apply Z.leb_le; apply wrap_range).
  rewrite E. change (0 * 2) with 0. rewrite wrap_0.
  unfold _mm_loadu_si128.
  destruct Hshort as [H|H].
  - rewrite (loadn_out_of_bounds 16 vec1 0) by (change (Z.of_nat 16) with 16; lia).
    reflexivity.
  - rewrite (loadn_out_of_bounds 16 vec2 0) by (change (Z.of_nat 16) with 16; lia).
    destruct (loadn 16 vec1 0); reflexivity.
Qed.

Lemma distance_always_reads_16_bytes_witness :
  (0 <= 0 < SIZE_MAX1 /\
   (Z.of_nat (length (@nil byte)) < 16 \/ Z.of_nat (length one_to_eight) < 16)) /\
  distance zero_hi 1 [] one_to_eight 0 = Fault.
Proof.
  assert (H1 : 0 <= 0 < SIZE_MAX1) by (rewrite SIZE_MAX1_eq; lia).
  assert (H2 : Z.of_nat (length (@nil byte)) < 16
               \/ Z.of_nat (length one_to_eight) < 16) by (left; cbn; lia).
  split; [exact (conj H1 H2)|].
  exact (distance_always_reads_16_bytes zero_hi 0 [] one_to_eight 0 H1 H2).
Defined.

(** ** Sizes of at least one group: the whole run *)

Lemma remainder_loop_run (u : indeterminate) (vec1 vec2 : buffer)
  (size i0 : Z) :
  0 <= i0 ->
  size < Z.of_nat (length vec1) -> size < Z.of_nat (length vec2) ->
  size + 1 < SIZE_MAX1 ->
  forall (c fuel k : nat) (s : state),
    idx s = i0 + 2 * Z.of_nat k ->
    size <= i0 + 2 * Z.of_nat (k + c) ->
    (c = 0%nat \/ i0 + 2 * Z.of_nat (k + c) - 2 < size) ->
    (c < fuel)%nat ->
    exists s',
      remainder_loop u fuel vec1 vec2 size s = Ret s' /\
      trace s' = trace s ++ rem_events i0 k c /\
      acc s' = add_rems u vec1 vec2 i0 k c (acc s).
Proof.
  intros H0 L1 L2 Hmax.
  induction c as [|c IH]; intros fuel k s Hidx Hend Hlast Hfuel;
    (destruct fuel as [|fuel]; [lia|]).
  - rewrite remainder_loop_done by lia.
    exists s. split; [reflexivity|]. split; [|reflexivity].
    cbn. now rewrite app_nil_r.
  - destruct Hlast as [Hc|Hlast]; [discriminate|].
    rewrite remainder_loop_step by lia.
    match goal with
    | |- exists s', remainder_loop _ _ _ _ _ ?st = _ /\ _ =>
        destruct (IH fuel (S k) st) as (s' & Hrun & Ht & Ha)
    end.
    + cbn [idx]. lia.
    + replace (S k + c)%nat with (k + S c)%nat by lia. exact Hend.
    + destruct c as [|c]; [now left|right].
      replace (S k + S c)%nat with (k + S (S c))%nat by lia. exact Hlast.
    + lia.
    + exists s'. split; [exact Hrun|]. split.
      * rewrite Ht. cbn [trace]. rewrite <- app_assoc. cbn [app].
        unfold rem_events. cbn [seq map]. rewrite Hidx. reflexivity.
      * rewrite Ha. cbn [acc]. unfold add_rems. cbn [seq fold_left].
        rewrite Hidx. reflexivity.
Qed.

Lemma distance_run_general (u : indeterminate) (fuel : nat)
  (vec1 vec2 : buffer) (size : Z) :
  8 <= size ->
  2 * size <= Z.of_nat (length vec1) ->
  2 * size <= Z.of_nat (length vec2) ->
  2 * size <= SIZE_MAX1 ->
  size / 8 + 4 < Z.of_nat fuel ->
  distance_run u fuel vec1 vec2 size
  = Ret (hsum (add_rems u vec1 vec2 (8 * (size / 8)) 0
                 (Z.to_nat ((size mod 8 + 1) / 2))
                 (add_groups vec1 vec2 0 (Z.to_nat (size / 8))
                    _mm256_setzero_ps)),
         group_events 0 (Z.to_nat (size / 8))
         ++ rem_events (8 * (size / 8)) 0 (Z.to_nat ((size mod 8 + 1) / 2))).
Proof.
  intros H8 L1 L2 Haddr Hfuel.
  pose proof (Z.div_mod size 8 ltac:(lia)) as Hdm.
  pose proof (Z.mod_pos_bound size 8 ltac:(lia)) as Hmod.
  assert (Hq : 1 <= size / 8) by (apply Z.div_le_lower_bound; lia).
  pose proof (Z.div_mod (size mod 8 + 1) 2 ltac:(lia)) as Hdc.
  pose proof (Z.mod_pos_bound (size mod 8 + 1) 2 ltac:(lia)) as Hmc.
  assert (Hc : 0 <= (size mod 8 + 1) / 2 <= 4).
  { split; [apply Z.div_pos; lia|].
    apply Z.div_le_upper_bound; lia. }
  destruct (main_loop_run vec1 vec2 size ltac:(lia) L1 L2
              (Z.to_nat (size / 8)) fuel 0%nat initial)
    as (s1 & Hrun1 & Hi1 & Ht1 & Ha1); try (cbn [idx initial]; lia).
  specialize (Ha1 Haddr). cbn [initial trace acc app] in Ht1, Ha1.
  assert (Hlast : Z.to_nat ((size mod 8 + 1) / 2) = 0%nat
                  \/ 8 * (size / 8)
                     + 2 * Z.of_nat (0 + Z.to_nat ((size mod 8 + 1) / 2)) - 2
                     < size).
  { destruct (Z.eq_dec ((size mod 8 + 1) / 2) 0) as [E|E].
    - left. rewrite E. reflexivity.
    - right. lia. }
  destruct (remainder_loop_run u vec1 vec2 size (8 * (size / 8))
              ltac:(lia) ltac:(lia) ltac:(lia) ltac:(lia)
              (Z.to_nat ((size mod 8 + 1) / 2)) fuel 0%nat s1
              ltac:(lia) ltac:(lia) Hlast ltac:(lia))
    as (s2 & Hrun2 & Ht2 & Ha2).
  unfold distance_run. rewrite Hrun1. cbn [bind]. rewrite Hrun2. cbn [bind].
  rewrite Ht2, Ha2, Ht1, Ha1. reflexivity.
Qed.

(** X6. With buffers of at least [2 * size] bytes and a size of at least 8,
    the kernel returns, and every byte it reads lies within the first
    [2 * size] bytes of its buffer. *)
Theorem distance_returns_within_bounds (u : indeterminate) (fuel : nat)
  (vec1 vec2 : buffer) (size : Z) :
  8 <= size ->
  2 * size <= Z.of_nat (length vec1) ->
  2 * size <= Z.of_nat (length vec2) ->
  2 * size <= SIZE_MAX1 ->
  size / 8 + 4 < Z.of_nat fuel ->
  exists (r : float) (t : list event),
    distance_run u fuel vec1 vec2 size = Ret (r, t) /\
    forall e : event, In e t -> reads_within (2 * size) e.
Proof.
  intros H8 L1 L2 Haddr Hfuel.
  rewrite distance_run_general by assumption.
  eexists. eexists. split; [reflexivity|].
  pose proof (Z.div_mod size 8 ltac:(lia)) as Hdm.
  pose proof (Z.mod_pos_bound size 8 ltac:(lia)) as Hmod.
  pose proof (Z.div_mod (size mod 8 + 1) 2 ltac:(lia)) as Hdc.
  pose proof (Z.mod_pos_bound (size mod 8 + 1) 2 ltac:(lia)) as Hmc.
  assert (Hq : 1 <= size / 8) by (apply Z.div_le_lower_bound; lia).
  intros e He. apply in_app_iff in He. destruct He as [He|He].
  - unfold group_events in He. apply in_map_iff in He.
    destruct He as (j & <- & Hj). apply in_seq in Hj. cbn [reads_within].
    rewrite wrap_small by lia. lia.
  - unfold rem_events in He. apply in_map_iff in He.
    destruct He as (j & <- & Hj). apply in_seq in Hj. cbn [reads_within].
    assert (Z.of_nat j < (size mod 8 + 1) / 2).
    { destruct (Z.le_gt_cases 0 ((size mod 8 + 1) / 2)); lia. }
    lia.
Qed.

Lemma distance_returns_within_bounds_witness :
  (8 <= 9 /\
   2 * 9 <= Z.of_nat (length nine_zeros) /\
   2 * 9 <= Z.of_nat (length nine_zeros) /\
   2 * 9 <= SIZE_MAX1 /\
   9 / 8 + 4 < Z.of_nat 6) /\
  exists (r : float) (t : list event),
    distance_run zero_hi 6 nine_zeros nine_zeros 9 = Ret (r, t) /\
    forall e : event, In e t -> reads_within (2 * 9) e.
Proof.
  assert (H : 8 <= 9 /\
   2 * 9 <= Z.of_nat (length nine_zeros) /\
   2 * 9 <= Z.of_nat (length nine_zeros) /\
   2 * 9 <= SIZE_MAX1 /\
   9 / 8 + 4 < Z.of_nat 6) by (rewrite SIZE_MAX1_eq; cbn; lia).
  split; [exact H|]. destruct H as (H1 & H2 & H3 & H4 & H5).
  exact (distance_returns_within_bounds zero_hi 6 nine_zeros nine_zeros 9
           H1 H2 H3 H4 H5).
Defined.

Lemma visited_group_events (n : nat) :
  visited (group_events 0 n) = map Z.of_nat (seq 0 (8 * n)).
Proof.
  unfold visited, group_events. induction n as [|n IH].
  - reflexivity.
  - rewrite seq_S, map_app, flat_map_app, IH.
    replace (8 * S n)%nat with (8 * n + 8)%nat by lia.
    rewrite seq_app, map_app. f_equal.
    cbn [Nat.add map flat_map covered seq app].
    repeat (f_equal; [lia|]). f_equal. lia.
Qed.

Lemma visited_rem_events (i0 : Z) (c : nat) :
  visited (rem_events i0 0 c)
  = map (fun j => i0 + 2 * Z.of_nat j) (seq 0 c).
Proof.
  unfold visited, rem_events. induction c as [|c IH].
  - reflexivity.
  - rewrite seq_S, !map_app, flat_map_app, IH. reflexivity.
Qed.

(** X7. The indices the two loops go through, for a size of at least 8: all
    those of the whole groups, then every other one of the tail, starting
    with the first. An index of the tail at an odd distance from its start
    is never visited. *)
Theorem visited_indices (u : indeterminate) (fuel : nat)
  (vec1 vec2 : buffer) (size : Z) :
  8 <= size ->
  2 * size <= Z.of_nat (length vec1) ->
  2 * size <= Z.of_nat (length vec2) ->
  2 * size <= SIZE_MAX1 ->
  size / 8 + 4 < Z.of_nat fuel ->
  exists (r : float) (t : list event),
    distance_run u fuel vec1 vec2 size = Ret (r, t) /\
    forall i : Z,
      In i (visited t) <->
      0 <= i < size /\ (i < 8 * (size / 8) \/ (i - 8 * (size / 8)) mod 2 = 0).
Proof.
  intros H8 L1 L2 Haddr Hfuel.
  rewrite distance_run_general by assumption.
  eexists. eexists. split; [reflexivity|].
  pose proof (Z.div_mod size 8 ltac:(lia)) as Hdm.
  pose proof (Z.mod_pos_bound size 8 ltac:(lia)) as Hmod.
  pose proof (Z.div_mod (size mod 8 + 1) 2 ltac:(lia)) as Hdc.
  pose proof (Z.mod_pos_bound (size mod 8 + 1) 2 ltac:(lia)) as Hmc.
  assert (Hq : 1 <= size / 8) by (apply Z.div_le_lower_bound; lia).
  assert (Hc : 0 <= (size mod 8 + 1) / 2) by (apply Z.div_pos; lia).
  set (q := size / 8) in *. set (c := (size mod 8 + 1) / 2) in *.
  intros i. unfold visited. rewrite flat_map_app.
  fold (visited (group_events 0 (Z.to_nat q))).
  fold (visited (rem_events (8 * q) 0 (Z.to_nat c))).
  rewrite visited_group_events, visited_rem_events, in_app_iff, !in_map_iff.
  split.
  - intros [(j & <- & Hj)|(j & <- & Hj)]; apply in_seq in Hj.
    + split; [lia|]. left. lia.
    + split; [lia|]. right.
      replace (8 * q + 2 * Z.of_nat j - 8 * q) with (Z.of_nat j * 2) by lia.
      apply Z.mod_mul. lia.
  - intros [Hi [Hlt|Heven]].
    + left. exists (Z.to_nat i). split; [lia|]. apply in_seq. lia.
    + destruct (Z.lt_ge_cases i (8 * q)) as [Hlt|Hge].
      * left. exists (Z.to_nat i). split; [lia|]. apply in_seq. lia.
      * right. pose proof (Z.div_mod (i - 8 * q) 2 ltac:(lia)) as Hd.
        rewrite Heven in Hd.
        assert (0 <= (i - 8 * q) / 2) by (apply Z.div_pos; lia).
        exists (Z.to_nat ((i - 8 * q) / 2)). split; [lia|].
        apply in_seq. lia.
Qed.

Lemma visited_indices_witness :
  (8 <= 9 /\
   2 * 9 <= Z.of_nat (length nine_zeros) /\
   2 * 9 <= Z.of_nat (length nine_zeros) /\
   2 * 9 <= SIZE_MAX1 /\
   9 / 8 + 4 < Z.of_nat 6) /\
  exists (r : float) (t : list event),
    distance_run zero_hi 6 nine_zeros nine_zeros 9 = Ret (r, t) /\
    forall i : Z,
      In i (visited t) <->
      0 <= i < 9 /\ (i < 8 * (9 / 8) \/ (i - 8 * (9 / 8)) mod 2 = 0).
Proof.
  assert (H : 8 <= 9 /\
   2 * 9 <= Z.of_nat (length nine_zeros) /\
   2 * 9 <= Z.of_nat (length nine_zeros) /\
   2 * 9 <= SIZE_MAX1 /\
   9 / 8 + 4 < Z.of_nat 6) by (rewrite SIZE_MAX1_eq; cbn; lia).
  split; [exact H|]. destruct H as (H1 & H2 & H3 & H4 & H5).
  exact (visited_indices zero_hi 6 nine_zeros nine_zeros 9 H1 H2 H3 H4 H5).
Defined.

(** ** Exchanging the two vectors, on whole groups *)

Lemma binary_round_abs (s s' : bool) (M : positive) (e : Z) :
  SFabs (binary_round 24 128 s M e) = SFabs (binary_round 24 128 s' M e).
Proof.
  unfold binary_round.
  destruct (shl_align M e (fexp 24 128 (Zpos (digits2_pos M) + e))) as [mz ez].
  unfold binary_round_aux.
  destruct (shr_fexp 24 128 (Zpos mz) ez loc_Exact) as [mrs e1].
  destruct (shr_fexp 24 128 _ e1 loc_Exact) as [mrs2 e2].
  destruct (shr_m mrs2); [reflexivity| |reflexivity].
  destruct (e2 <=? 128 - 24); reflexivity.
Qed.

Lemma f32_sub_abs_swap (a b : float) :
  SFabs (f32_sub a b) = SFabs (f32_sub b a).
Proof.
  destruct a as [sa|sa| |sa ma ea], b as [sb|sb| |sb mb eb];
    try (destruct sa, sb; reflexivity); try reflexivity;
    try (destruct sa; reflexivity); try (destruct sb; reflexivity).
  unfold f32_sub, SFsub. rewrite (Z.min_comm eb ea).
  set (ez := Z.min ea eb).
  set (X := cond_Zopp sa (Zpos (fst (shl_align ma ea ez)))).
  set (Y := cond_Zopp sb (Zpos (fst (shl_align mb eb ez)))).
  replace (Y - X) with (- (X - Y)) by ring.
  destruct (X - Y) as [|M|M]; cbn [Z.opp binary_normalize].
  - reflexivity.
  - apply binary_round_abs.
  - apply binary_round_abs.
Qed.

Lemma f32_mul_abs (x : float) : f32_mul x x = f32_mul (SFabs x) (SFabs x).
Proof. destruct x as [s|s| |s m e]; try destruct s; reflexivity. Qed.

Lemma sq_diff_swap (vec1 vec2 : buffer) (i : Z) :
  sq_diff vec1 vec2 i = sq_diff vec2 vec1 i.
Proof.
  unfold sq_diff.
  rewrite f32_mul_abs, f32_sub_abs_swap, <- f32_mul_abs. reflexivity.
Qed.

Lemma fold_left_ext {A B : Type} (f g : A -> B -> A) (l : list B) :
  (forall a b, f a b = g a b) ->
  forall x : A, fold_left f l x = fold_left g l x.
Proof.
  intros H. induction l as [|b l IH]; intros x; cbn [fold_left].
  - reflexivity.
  - rewrite H. apply IH.
Qed.

Lemma lanewise_sum_swap (vec1 vec2 : buffer) (size : Z) :
  lanewise_sum vec1 vec2 size = lanewise_sum vec2 vec1 size.
Proof.
  unfold lanewise_sum.
  assert (E : forall k, lane_total vec1 vec2 (Z.to_nat (size / 8)) k
                        = lane_total vec2 vec1 (Z.to_nat (size / 8)) k).
  { intros k. unfold lane_total. apply fold_left_ext.
    intros a j. now rewrite sq_diff_swap. }
  rewrite !E. reflexivity.
Qed.

(** X8. On whole groups the kernel is symmetric: for a size that is a
    positive multiple of 8, exchanging the two vectors does not change the
    value returned. *)
Theorem distance_symmetric_whole_groups (u : indeterminate) (fuel : nat)
  (vec1 vec2 : buffer) (size : Z) :
  8 <= size -> size mod 8 = 0 ->
  2 * size <= Z.of_nat (length vec1) ->
  2 * size <= Z.of_nat (length vec2) ->
  2 * size <= SIZE_MAX1 ->
  size / 8 < Z.of_nat fuel ->
  exists r : float,
    distance u fuel vec1 vec2 size = Ret r /\
    distance u fuel vec2 vec1 size = Ret r.
Proof.
  intros H8 Hmod L1 L2 Haddr Hfuel.
  exists (lanewise_sum vec1 vec2 size). unfold distance.
  rewrite !distance_run_whole_groups by assumption.
  rewrite (lanewise_sum_swap vec2 vec1). split; reflexivity.
Qed.

Lemma distance_symmetric_whole_groups_witness :
  (8 <= 8 /\ 8 mod 8 = 0 /\
   2 * 8 <= Z.of_nat (length one_to_eight) /\
   2 * 8 <= Z.of_nat (length one_to_seven_nine) /\
   2 * 8 <= SIZE_MAX1 /\
   8 / 8 < Z.of_nat 2) /\
  exists r : float,
    distance zero_hi 2 one_to_eight one_to_seven_nine 8 = Ret r /\
    distance zero_hi 2 one_to_seven_nine one_to_eight 8 = Ret r.
Proof.
  assert (H : 8 <= 8 /\ 8 mod 8 = 0 /\
   2 * 8 <= Z.of_nat (length one_to_eight) /\
   2 * 8 <= Z.of_nat (length one_to_seven_nine) /\
   2 * 8 <= SIZE_MAX1 /\
   8 / 8 < Z.of_nat 2) by (rewrite SIZE_MAX1_eq; cbn; lia).
  split; [exact H|]. destruct H as (H1 & H2 & H3 & H4 & H5 & H6).
  exact (distance_symmetric_whole_groups zero_hi 2 one_to_eight
           one_to_seven_nine 8 H1 H2 H3 H4 H5 H6).
Defined.

(** ** The sign of the result *)

Lemma binary_round_aux_no_minus (M e : Z) (l : location) :
  no_minus (binary_round_aux 24 128 false M e l) = true.
Proof.
  unfold binary_round_aux.
  destruct (shr_fexp 24 128 M e l) as [mrs e1].
  destruct (shr_fexp 24 128 _ e1 loc_Exact) as [mrs2 e2].
  destruct (shr_m mrs2); [reflexivity| |reflexivity].
  destruct (e2 <=? 128 - 24); reflexivity.
Qed.

Lemma binary_round_no_minus (M : positive) (e : Z) :
  no_minus (binary_round 24 128 false M e) = true.
Proof.
  unfold binary_round.
  destruct (shl_align M e (fexp 24 128 (Zpos (digits2_pos M) + e))) as [mz ez].
  apply binary_round_aux_no_minus.
Qed.

Lemma f32_add_no_minus (x y : float) :
  no_minus x = true -> no_minus y = true -> no_minus (f32_add x y) = true.
Proof.
  destruct x as [sx|sx| |sx mx ex], y as [sy|sy| |sy my ey];
    cbn [no_minus]; intros Hx Hy;
    try (apply negb_true_iff in Hx; subst sx);
    try (apply negb_true_iff in Hy; subst sy);
    try reflexivity.
  unfold f32_add, SFadd. cbn [cond_Zopp Z.add binary_normalize].
  apply binary_round_no_minus.
Qed.

Lemma f32_mul_sq_no_minus (d : float) : no_minus (f32_mul d d) = true.
Proof.
  destruct d as [s|s| |s m e]; try (destruct s; reflexivity); try reflexivity.
  unfold f32_mul, SFmul. rewrite xorb_nilpotent.
  apply binary_round_aux_no_minus.
Qed.

Lemma lanewise_add_no_minus (a b : list float) :
  Forall (fun x => no_minus x = true) a ->
  Forall (fun x => no_minus x = true) b ->
  Forall (fun x => no_minus x = true) (lanewise f32_add a b).
Proof.
  intros Ha. revert b. induction Ha as [|x a Hx Ha IH]; intros b Hb.
  - constructor.
  - destruct Hb as [|y b Hy Hb]; cbn [lanewise]; constructor.
    + now apply f32_add_no_minus.
    + now apply IH.
Qed.

Lemma lanewise_sq_no_minus (d : list float) :
  Forall (fun x => no_minus x = true) (lanewise f32_mul d d).
Proof.
  induction d as [|x d IH]; cbn [lanewise]; constructor.
  - apply f32_mul_sq_no_minus.
  - exact IH.
Qed.

Lemma repeat_no_minus (x : float) (n : nat) :
  no_minus x = true -> Forall (fun x => no_minus x = true) (repeat x n).
Proof. intros H. induction n; cbn [repeat]; constructor; assumption. Qed.

Lemma main_loop_no_minus (vec1 vec2 : buffer) (size : Z) (fuel : nat) :
  forall s s' : state,
    Forall (fun x => no_minus x = true) (acc s) ->
    main_loop fuel vec1 vec2 size s = Ret s' ->
    Forall (fun x => no_minus x = true) (acc s').
Proof.
  induction fuel as [|fuel IH]; intros s s' Hs H; [discriminate|].
  cbn [main_loop] in H.
  destruct (idx s <=? wrap (size - 8)); [|injection H as <-; exact Hs].
  destruct (_mm_loadu_si128 vec1 _) as [p1|]; [|discriminate].
  destruct (_mm_loadu_si128 vec2 _) as [p2|]; [|discriminate].
  apply IH in H; [exact H|]. cbn [acc].
  apply lanewise_add_no_minus; [exact Hs|apply lanewise_sq_no_minus].
Qed.

Lemma remainder_loop_no_minus (u : indeterminate) (vec1 vec2 : buffer)
  (size : Z) (fuel : nat) :
  forall s s' : state,
    Forall (fun x => no_minus x = true) (acc s) ->
    remainder_loop u fuel vec1 vec2 size s = Ret s' ->
    Forall (fun x => no_minus x = true) (acc s').
Proof.
  induction fuel as [|fuel IH]; intros s s' Hs H; [discriminate|].
  cbn [remainder_loop] in H.
  destruct (idx s <? size); [|injection H as <-; exact Hs].
  destruct (read vec1 (idx s)); [|discriminate].
  destruct (read vec1 _); [|discriminate].
  destruct (read vec2 (idx s)); [|discriminate].
  destruct (read vec2 _); [|discriminate].
  apply IH in H; [exact H|]. cbn [acc].
  apply lanewise_add_no_minus; [exact Hs|].
  apply repeat_no_minus, f32_mul_sq_no_minus.
Qed.

Lemma nth_no_minus (l : list float) (k : nat) :
  Forall (fun x => no_minus x = true) l -> no_minus (nth k l S754_nan) = true.
Proof.
  intros H. revert k. induction H as [|x l Hx Hl IH]; intros [|k]; cbn [nth];
    try reflexivity; auto.
Qed.

Lemma firstn_no_minus (n : nat) (l : list float) :
  Forall (fun x => no_minus x = true) l ->
  Forall (fun x => no_minus x = true) (firstn n l).
Proof.
  intros H. revert n. induction H as [|x l Hx Hl IH]; intros [|n];
    cbn [firstn]; constructor; auto.
Qed.

Lemma skipn_no_minus (n : nat) (l : list float) :
  Forall (fun x => no_minus x = true) l ->
  Forall (fun x => no_minus x = true) (skipn n l).
Proof.
  intros H. revert n. induction H as [|x l Hx Hl IH]; intros [|n];
    cbn [skipn]; try constructor; auto.
Qed.

Lemma hsum_no_minus (a : m256) :
  Forall (fun x => no_minus x = true) a -> no_minus (hsum a) = true.
Proof.
  intros H. unfold hsum.
  assert (L : Forall (fun x => no_minus x = true)
                (_mm_add_ps (_mm256_castps256_ps128 a)
                            (_mm256_extractf128_ps a 1))).
  { apply lanewise_add_no_minus.
    - now apply firstn_no_minus.
    - now apply firstn_no_minus, skipn_no_minus. }
  repeat apply f32_add_no_minus; now apply nth_no_minus.
Qed.

(** X9. Whatever the input, a value returned by the kernel is never
    negative: it is NaN, or its sign bit is clear. *)
Theorem distance_never_negative (u : indeterminate) (fuel : nat)
  (vec1 vec2 : buffer) (size : Z) (r : float) :
  distance u fuel vec1 vec2 size = Ret r -> no_minus r = true.
Proof.
  unfold distance, distance_run. intros H.
  destruct (main_loop fuel vec1 vec2 size initial) as [s1| |] eqn:E1;
    cbn [bind] in H; try discriminate.
  destruct (remainder_loop u fuel vec1 vec2 size s1) as [s2| |] eqn:E2;
    cbn [bind fst] in H; try discriminate.
  injection H as <-. apply hsum_no_minus.
  eapply remainder_loop_no_minus; [|exact E2].
  eapply main_loop_no_minus; [|exact E1].
  cbn [initial acc]. apply repeat_no_minus. reflexivity.
Qed.

Lemma distance_never_negative_witness :
  distance zero_hi 2 one_to_eight one_to_seven_nine 8
  = Ret (S754_finite false 8388608 (-23)) /\
  no_minus (S754_finite false 8388608 (-23)) = true.
Proof.
  assert (H : distance zero_hi 2 one_to_eight one_to_seven_nine 8
              = Ret (S754_finite false 8388608 (-23)))
    by (vm_compute; reflexivity).
  split; [exact H|].
  exact (distance_never_negative zero_hi 2 one_to_eight one_to_seven_nine 8
           _ H).
Defined.

(** ** Buffers shorter than the whole groups *)

Lemma loadn_Some_in_bounds (n : nat) (p : buffer) (off : Z) (bs : list Z) :
  (0 < n)%nat -> 0 <= off -> loadn n p off = Some bs ->
  off + Z.of_nat n <= Z.of_nat (length p).
Proof.
  intros Hn H0 H.
  destruct (Z.le_gt_cases (off + Z.of_nat n) (Z.of_nat (length p))) as [|G];
    [assumption|].
  rewrite loadn_out_of_bounds in H by lia. discriminate.
Qed.

Lemma main_loop_faults (vec1 vec2 : buffer) (size : Z) :
  8 <= size -> 2 * size <= SIZE_MAX1 ->
  Z.of_nat (length vec1) < 16 * (size / 8)
  \/ Z.of_nat (length vec2) < 16 * (size / 8) ->
  forall (n fuel k : nat) (s : state),
    idx s = 8 * Z.of_nat k ->
    Z.of_nat k + Z.of_nat n = size / 8 ->
    (1 <= n)%nat -> (n <= fuel)%nat ->
    main_loop fuel vec1 vec2 size s = Fault.
Proof.
  intros H8 Haddr Hshort.
  assert (Hb : wrap (size - 8) = size - 8)
    by (apply wrap_small; rewrite SIZE_MAX1_eq in *; lia).
  pose proof (Z.mul_div_le size 8 ltac:(lia)) as Hdiv.
  induction n as [|n IH]; intros fuel k s Hidx Hk Hn Hfuel; [lia|].
  destruct fuel as [|fuel]; [lia|]. cbn [main_loop]. rewrite Hb.
  assert (E : (idx s <=? size - 8) = true) by (apply Z.leb_le; lia).
  rewrite E.
  assert (Ew : wrap (idx s * 2) = 16 * Z.of_nat k)
    by (rewrite wrap_small; rewrite ?SIZE_MAX1_eq in *; lia).
  rewrite Ew. unfold _mm_loadu_si128.
  destruct (loadn 16 vec1 (16 * Z.of_nat k)) as [p1|] eqn:E1; [|reflexivity].
  destruct (loadn 16 vec2 (16 * Z.of_nat k)) as [p2|] eqn:E2; [|reflexivity].
  apply loadn_Some_in_bounds in E1; try lia.
  apply loadn_Some_in_bounds in E2; try lia.
  change (Z.of_nat 16) with 16 in E1, E2.
  destruct n as [|n]; [lia|].
  apply (IH fuel (S k)); try lia.
  cbn [idx]. rewrite wrap_small; rewrite ?SIZE_MAX1_eq in *; lia.
Qed.

(** X5. For a size of at least 8, a buffer that holds fewer than
    [16 * (size / 8)] bytes, the bytes of the whole groups, is read out of
    bounds. *)
Theorem distance_faults_on_short_buffer (u : indeterminate) (fuel : nat)
  (vec1 vec2 : buffer) (size : Z) :
  8 <= size -> 2 * size <= SIZE_MAX1 ->
  Z.of_nat (length vec1) < 16 * (size / 8)
  \/ Z.of_nat (length vec2) < 16 * (size / 8) ->
  size / 8 <= Z.of_nat fuel ->
  distance u fuel vec1 vec2 size = Fault.
Proof.
  intros H8 Haddr Hshort Hfuel.
  assert (Hq : 1 <= size / 8) by (apply Z.div_le_lower_bound; lia).
  unfold distance, distance_run.
  rewrite (main_loop_faults vec1 vec2 size H8 Haddr Hshort
             (Z.to_nat (size / 8)) fuel 0%nat initial);
    try reflexivity; lia.
Qed.

Lemma distance_faults_on_short_buffer_witness :
  (8 <= 16 /\ 2 * 16 <= SIZE_MAX1 /\
   (Z.of_nat (length one_to_eight) < 16 * (16 / 8)
    \/ Z.of_nat (length one_to_eight) < 16 * (16 / 8)) /\
   16 / 8 <= Z.of_nat 2) /\
  distance zero_hi 2 one_to_eight one_to_eight 16 = Fault.
Proof.
  assert (H1 : 8 <= 16) by lia.
  assert (H2 : 2 * 16 <= SIZE_MAX1) by (rewrite SIZE_MAX1_eq; lia).
  assert (H3 : Z.of_nat (length one_to_eight) < 16 * (16 / 8)
               \/ Z.of_nat (length one_to_eight) < 16 * (16 / 8))
    by (left; cbn; lia).
  assert (H4 : 16 / 8 <= Z.of_nat 2) by (cbn; lia).
  split; [exact (conj H1 (conj H2 (conj H3 H4)))|].
  exact (distance_faults_on_short_buffer zero_hi 2 one_to_eight one_to_eight
           16 H1 H2 H3 H4).
Defined.

(** ** The conversion of the vectorized loop is exact *)

Lemma cvtph_decode_table :
  all_below 65536 (fun h => Qopt_eqb (F2Q (cvtph h)) (decode h)) = true.
Proof. vm_compute. reflexivity. Qed.

(** X13. The conversion the vectorized loop applies to a 16-bit pattern gives
    the binary32 whose real value is the one the pattern has as a
    binary16, and a NaN or an infinity exactly for the patterns that have
    none. *)
Theorem cvtph_exact (h : Z) :
  0 <= h < 65536 ->
  match F2Q (cvtph h), decode h with
  | Some x, Some y => (x == y)%Q
  | None, None => True
  | _, _ => False
  end.
Proof.
  intros Hh.
  pose proof (all_below_spec _ _ cvtph_decode_table h Hh) as T.
  cbv beta in T. unfold Qopt_eqb in T.
  destruct (F2Q (cvtph h)), (decode h); try discriminate; [|exact I].
  now apply Qeq_bool_iff.
Qed.

Lemma cvtph_exact_witness :
  0 <= 15360 < 65536 /\
  match F2Q (cvtph 15360), decode 15360 with
  | Some x, Some y => (x == y)%Q
  | None, None => True
  | _, _ => False
  end.
Proof.
  assert (H : 0 <= 15360 < 65536) by lia.
  split; [exact H|]. exact (cvtph_exact 15360 H).
Defined.

(** ** The remainder loop when the unspecified union bytes are zero *)

Lemma float_of_bits_small (v : Z) :
  0 <= v < 65536 ->
  float_of_bits v
  = match v with
    | Zpos p => S754_finite false p (-149)
    | _ => S754_zero false
    end.
Proof.
  intros Hv. unfold float_of_bits.
  assert (E1 : Z.testbit v 31 = false).
  { rewrite Z.testbit_odd, Z.shiftr_div_pow2 by lia.
    rewrite Z.div_small; [reflexivity|].
    change (2 ^ 31) with 2147483648. lia. }
  assert (E2 : Z.shiftr v 23 = 0).
  { rewrite Z.shiftr_div_pow2 by lia. apply Z.div_small.
    change (2 ^ 23) with 8388608. lia. }
  assert (E3 : Z.land v 8388607 = v).
  { change 8388607 with (Z.ones 23). rewrite Z.land_ones by lia.
    apply Z.mod_small. change (2 ^ 23) with 8388608. lia. }
  rewrite E1, E2, E3. reflexivity.
Qed.

Lemma union_cast_zero_hi (hi v : Z) :
  hi mod 2 ^ 16 = 0 -> 0 <= v < 65536 -> tiny (union_cast hi v).
Proof.
  intros Hhi Hv. unfold union_cast. rewrite Hhi.
  rewrite Z.shiftl_0_l, Z.lor_0_l, float_of_bits_small by exact Hv.
  destruct v as [|p|p]; [now left| |lia].
  right. exists p. split; [reflexivity|lia].
Qed.

Lemma pack16_range (b0 b1 : Z) : 0 <= pack16 b0 b1 < 65536.
Proof. unfold pack16. apply Z.mod_pos_bound. reflexivity. Qed.

Lemma binary_round_tiny (s : bool) (M : positive) :
  Zpos M < 65536 ->
  binary_round 24 128 s M (-149) = S754_finite s M (-149).
Proof.
  intros HM.
  pose proof (digits_le M 16 ltac:(lia) ltac:(change (2 ^ 16) with 65536; lia)) as D.
  assert (D1 : 0 < Zpos (digits2_pos M)) by lia.
  assert (Hf : fexp 24 128 (Zpos (digits2_pos M) + -149) = -149)
    by (unfold fexp, emin; lia).
  unfold binary_round. rewrite Hf. unfold shl_align.
  change (-149 - -149) with 0. cbv iota beta.
  unfold binary_round_aux, shr_fexp. cbn [Zdigits2 shr_record_of_loc].
  rewrite Hf. change (-149 - -149) with 0.
  cbn [shr shr_m loc_of_shr_record round_nearest_even Zdigits2].
  rewrite Hf. change (-149 - -149) with 0.
  cbn [shr shr_m]. reflexivity.
Qed.

Lemma f32_sub_tiny (x y : float) :
  tiny x -> tiny y ->
  (exists s, f32_sub x y = S754_zero s) \/
  (exists s p, f32_sub x y = S754_finite s p (-149) /\ Zpos p < 65536).
Proof.
  intros [->|(p & -> & Hp)] [->|(q & -> & Hq)].
  - left. now exists false.
  - right. exists true, q. split; [reflexivity|exact Hq].
  - right. exists false, p. split; [reflexivity|exact Hp].
  - unfold f32_sub, SFsub. change (Z.min (-149) (-149)) with (-149).
    unfold shl_align. change (-149 - -149) with 0. cbn [fst cond_Zopp].
    destruct (Zpos p - Zpos q) as [|M|M] eqn:E; cbn [binary_normalize].
    + left. now exists false.
    + right. exists false, M. split; [apply binary_round_tiny|]; lia.
    + right. exists true, M. split; [apply binary_round_tiny|]; lia.
Qed.

Lemma f32_mul_tiny (s : bool) (M : positive) :
  Zpos M < 65536 ->
  f32_mul (S754_finite s M (-149)) (S754_finite s M (-149)) = f32_zero.
Proof.
  intros HM. unfold f32_mul, SFmul. rewrite xorb_nilpotent.
  change (-149 + -149) with (-298).
  assert (HP : 0 < Zpos (M * M) < 4294967296).
  { rewrite Pos2Z.inj_mul. split; [lia|].
    change 4294967296 with (65536 * 65536).
    apply Z.mul_lt_mono_nonneg; lia. }
  pose proof (digits_le (M * M) 32 ltac:(lia)
                ltac:(change (2 ^ 32) with 4294967296; lia)) as D.
  assert (D1 : 0 < Zpos (digits2_pos (M * M))) by lia.
  assert (Hf : fexp 24 128 (Zpos (digits2_pos (M * M)) + -298) = -149)
    by (unfold fexp, emin; lia).
  unfold binary_round_aux, shr_fexp. cbn [Zdigits2 shr_record_of_loc].
  rewrite Hf. change (-149 - -298) with 149. cbn [shr].
  rewrite iter_pos_iter, shr_iter_spec by lia.
  assert (B148 : 4294967296 < 2 ^ (149 - 1)) by reflexivity.
  assert (B149 : 4294967296 < 2 ^ 149) by reflexivity.
  rewrite (Z.div_small (Zpos (M * M)) (2 ^ 149)) by lia.
  rewrite (Z.div_small (Zpos (M * M)) (2 ^ (149 - 1))) by lia.
  rewrite (Z.mod_small (Zpos (M * M)) (2 ^ (149 - 1))) by lia.
  cbn [Z.odd Z.eqb negb shr_m loc_of_shr_record round_nearest_even Zdigits2].
  change (fexp 24 128 (0 + (-298 + 149)) - (-298 + 149)) with 0.
  cbn [shr shr_m]. reflexivity.
Qed.

Lemma rem_sq_zero (u : indeterminate) (vec1 vec2 : buffer) (i : Z) :
  conv1_hi u i mod 2 ^ 16 = 0 -> conv2_hi u i mod 2 ^ 16 = 0 ->
  rem_sq u vec1 vec2 i = f32_zero.
Proof.
  intros H1 H2. unfold rem_sq. cbv zeta.
  match goal with
  | |- f32_mul (f32_sub (union_cast _ ?a) (union_cast _ ?b)) _ = _ =>
      destruct (f32_sub_tiny _ _
                  (union_cast_zero_hi _ a H1 (pack16_range _ _))
                  (union_cast_zero_hi _ b H2 (pack16_range _ _)))
        as [[s E]|(s & p & E & Hp)]; rewrite E
  end.
  - destruct s; reflexivity.
  - now apply f32_mul_tiny.
Qed.

Lemma f32_add_zero_r (x : float) :
  no_minus x = true -> f32_add x f32_zero = x.
Proof.
  destruct x as [s|s| |s m e]; cbn [no_minus]; intros H;
    try (apply negb_true_iff in H; subst s); reflexivity.
Qed.

Lemma lanewise_add_zeros (a : list float) (n : nat) :
  Forall (fun x => no_minus x = true) a -> (length a <= n)%nat ->
  lanewise f32_add a (repeat f32_zero n) = a.
Proof.
  intros H. revert n. induction H as [|x a Hx Ha IH]; intros n Hn.
  - reflexivity.
  - destruct n as [|n]; cbn [length] in Hn; [lia|].
    cbn [repeat lanewise]. rewrite f32_add_zero_r by exact Hx.
    rewrite IH by lia. reflexivity.
Qed.

Lemma add_rems_zero (u : indeterminate) (vec1 vec2 : buffer) (i0 : Z)
  (a : m256) :
  (forall i, conv1_hi u i mod 2 ^ 16 = 0) ->
  (forall i, conv2_hi u i mod 2 ^ 16 = 0) ->
  Forall (fun x => no_minus x = true) a -> (length a <= 8)%nat ->
  forall k c : nat, add_rems u vec1 vec2 i0 k c a = a.
Proof.
  intros H1 H2 Ha La k c. revert k.
  unfold add_rems. induction c as [|c IH]; intros k; cbn [seq fold_left].
  - reflexivity.
  - rewrite rem_sq_zero by auto.
    unfold _mm256_add_ps, _mm256_set1_ps.
    rewrite lanewise_add_zeros by assumption. apply IH.
Qed.

Lemma lanewise_length (op : float -> float -> float) (a : list float) :
  forall b : list float, (length (lanewise op a b) <= length a)%nat.
Proof.
  induction a as [|x a IH]; intros b; [cbn; lia|].
  destruct b as [|y b]; cbn [lanewise length]; [lia|].
  specialize (IH b). lia.
Qed.

Lemma add_groups_length (vec1 vec2 : buffer) (n : nat) :
  forall (k : nat) (a : m256),
    (length a <= 8)%nat -> (length (add_groups vec1 vec2 k n a) <= 8)%nat.
Proof.
  unfold add_groups. induction n as [|n IH]; intros k a La; cbn [seq fold_left].
  - exact La.
  - apply IH. unfold _mm256_add_ps.
    pose proof (lanewise_length f32_add a (sq_group vec1 vec2 (8 * Z.of_nat k))).
    lia.
Qed.

Lemma add_groups_no_minus (vec1 vec2 : buffer) (n : nat) :
  forall (k : nat) (a : m256),
    Forall (fun x => no_minus x = true) a ->
    Forall (fun x => no_minus x = true) (add_groups vec1 vec2 k n a).
Proof.
  unfold add_groups. induction n as [|n IH]; intros k a Ha; cbn [seq fold_left].
  - exact Ha.
  - apply IH. apply lanewise_add_no_minus; [exact Ha|].
    unfold sq_group. apply Forall_forall. intros x Hx.
    apply in_map_iff in Hx. destruct Hx as (j & <- & _).
    apply f32_mul_sq_no_minus.
Qed.

(** X12. When the two bytes the union leaves unspecified are zero, every value
    the remainder loop decodes is below [2^-133] in magnitude and every
    squared difference it adds is [+0]: the elements after the last whole
    group do not count, and the kernel returns the sum over the first
    [8 * (size / 8)] elements. *)
Theorem remainder_adds_nothing_when_upper_bytes_zero (u : indeterminate)
  (fuel : nat) (vec1 vec2 : buffer) (size : Z) :
  8 <= size ->
  2 * size <= Z.of_nat (length vec1) ->
  2 * size <= Z.of_nat (length vec2) ->
  2 * size <= SIZE_MAX1 ->
  size / 8 + 4 < Z.of_nat fuel ->
  (forall i, conv1_hi u i mod 2 ^ 16 = 0) ->
  (forall i, conv2_hi u i mod 2 ^ 16 = 0) ->
  distance u fuel vec1 vec2 size
  = Ret (lanewise_sum vec1 vec2 (8 * (size / 8))).
Proof.
  intros H8 L1 L2 Haddr Hfuel H1 H2. unfold distance.
  rewrite distance_run_general by assumption. cbn [bind fst].
  rewrite add_rems_zero; try assumption.
  - rewrite <- hsum_add_groups.
    replace (8 * (size / 8) / 8) with (size / 8)
      by (rewrite Z.mul_comm, Z.div_mul; lia).
    reflexivity.
  - apply add_groups_no_minus. apply repeat_no_minus. reflexivity.
  - apply add_groups_length. cbn. lia.
Qed.

Lemma remainder_adds_nothing_when_upper_bytes_zero_witness :
  (8 <= 9 /\
   2 * 9 <= Z.of_nat (length ninth_is_one) /\
   2 * 9 <= Z.of_nat (length zeros18) /\
   2 * 9 <= SIZE_MAX1 /\
   9 / 8 + 4 < Z.of_nat 6 /\
   (forall i, conv1_hi zero_hi i mod 2 ^ 16 = 0) /\
   (forall i, conv2_hi zero_hi i mod 2 ^ 16 = 0)) /\
  distance zero_hi 6 ninth_is_one zeros18 9
  = Ret (lanewise_sum ninth_is_one zeros18 (8 * (9 / 8))).
Proof.
  assert (H : 8 <= 9 /\
   2 * 9 <= Z.of_nat (length ninth_is_one) /\
   2 * 9 <= Z.of_nat (length zeros18) /\
   2 * 9 <= SIZE_MAX1 /\
   9 / 8 + 4 < Z.of_nat 6) by (rewrite SIZE_MAX1_eq; cbn; lia).
  destruct H as (H1 & H2 & H3 & H4 & H5).
  assert (H6 : forall i, conv1_hi zero_hi i mod 2 ^ 16 = 0)
    by (intros i; reflexivity).
  assert (H7 : forall i, conv2_hi zero_hi i mod 2 ^ 16 = 0)
    by (intros i; reflexivity).
  split; [repeat split; assumption|].
  exact (remainder_adds_nothing_when_upper_bytes_zero zero_hi 6 ninth_is_one
           zeros18 9 H1 H2 H3 H4 H5 H6 H7).
Defined.

(** ** The bytes after the whole groups *)

Lemma fold_left_ext_in {A B : Type} (f g : A -> B -> A) (l : list B) :
  (forall a b, In b l -> f a b = g a b) ->
  forall x : A, fold_left f l x = fold_left g l x.
Proof.
  induction l as [|b l IH]; intros H x; cbn [fold_left].
  - reflexivity.
  - rewrite H by now left. apply IH. intros a b' Hb'. apply H. now right.
Qed.

Section AgreeOnGroups.
Variables v1 v2 w1 w2 : buffer.
Variable n : nat.
Hypothesis agree1 : firstn (16 * n) v1 = firstn (16 * n) w1.
Hypothesis agree2 : firstn (16 * n) v2 = firstn (16 * n) w2.

Lemma sq_diff_agree (i : Z) :
  0 <= i < 8 * Z.of_nat n -> sq_diff v1 v2 i = sq_diff w1 w2 i.
Proof.
  intros Hi. unfold sq_diff, half_at.
  rewrite !(nth_agree (16 * n) _ v1 w1) by (assumption || lia).
  rewrite !(nth_agree (16 * n) _ v2 w2) by (assumption || lia).
  reflexivity.
Qed.

Lemma add_groups_agree (a : m256) :
  add_groups v1 v2 0 n a = add_groups w1 w2 0 n a.
Proof.
  unfold add_groups. apply fold_left_ext_in.
  intros x j Hj. apply in_seq in Hj. f_equal.
  unfold sq_group. apply map_ext_in. intros k Hk. apply in_seq in Hk.
  apply sq_diff_agree. lia.
Qed.

Lemma rem_sq_agree (u : indeterminate) (i : Z) :
  0 <= i -> i + 1 < 16 * Z.of_nat n ->
  rem_sq u v1 v2 i = rem_sq u w1 w2 i.
Proof.
  intros H0 Hi. unfold rem_sq.
  rewrite !(nth_agree (16 * n) _ v1 w1) by (assumption || lia).
  rewrite !(nth_agree (16 * n) _ v2 w2) by (assumption || lia).
  reflexivity.
Qed.

Lemma add_rems_agree (u : indeterminate) (c : nat) (a : m256) :
  (1 <= n)%nat -> (c <= 4)%nat ->
  add_rems u v1 v2 (8 * Z.of_nat n) 0 c a
  = add_rems u w1 w2 (8 * Z.of_nat n) 0 c a.
Proof.
  intros Hn Hc. unfold add_rems. apply fold_left_ext_in.
  intros x j Hj. apply in_seq in Hj. do 2 f_equal.
  apply rem_sq_agree; lia.
Qed.
End AgreeOnGroups.

(** X14. For a size of at least 8 the kernel reads nothing beyond the bytes of
    the whole groups: two pairs of buffers that agree on their first
    [16 * (size / 8)] bytes give the same result and the same reads,
    whatever is stored for the elements after the last whole group. *)
Theorem tail_elements_never_read (u : indeterminate) (fuel : nat)
  (v1 v2 w1 w2 : buffer) (size : Z) :
  8 <= size ->
  2 * size <= Z.of_nat (length v1) -> 2 * size <= Z.of_nat (length v2) ->
  2 * size <= Z.of_nat (length w1) -> 2 * size <= Z.of_nat (length w2) ->
  2 * size <= SIZE_MAX1 ->
  size / 8 + 4 < Z.of_nat fuel ->
  firstn (16 * Z.to_nat (size / 8)) v1 = firstn (16 * Z.to_nat (size / 8)) w1 ->
  firstn (16 * Z.to_nat (size / 8)) v2 = firstn (16 * Z.to_nat (size / 8)) w2 ->
  exists (r : float) (t : list event),
    distance_run u fuel v1 v2 size = Ret (r, t) /\
    distance_run u fuel w1 w2 size = Ret (r, t).
Proof.
  intros H8 Lv1 Lv2 Lw1 Lw2 Haddr Hfuel A1 A2.
  rewrite !distance_run_general by assumption.
  pose proof (Z.mod_pos_bound size 8 ltac:(lia)) as Hmod.
  assert (Hq : 1 <= size / 8) by (apply Z.div_le_lower_bound; lia).
  assert (Hc : (size mod 8 + 1) / 2 <= 4)
    by (apply Z.div_le_upper_bound; lia).
  rewrite (add_groups_agree v1 v2 w1 w2 (Z.to_nat (size / 8)) A1 A2).
  assert (E : 8 * (size / 8) = 8 * Z.of_nat (Z.to_nat (size / 8))) by lia.
  rewrite E.
  rewrite (add_rems_agree v1 v2 w1 w2 (Z.to_nat (size / 8)) A1 A2)
    by lia.
  eexists. eexists. split; reflexivity.
Qed.

Lemma tail_elements_never_read_witness :
  (8 <= 9 /\
   2 * 9 <= Z.of_nat (length zeros18) /\
   2 * 9 <= Z.of_nat (length zeros18) /\
   2 * 9 <= Z.of_nat (length ninth_is_one) /\
   2 * 9 <= Z.of_nat (length zeros18) /\
   2 * 9 <= SIZE_MAX1 /\
   9 / 8 + 4 < Z.of_nat 6 /\
   firstn (16 * Z.to_nat (9 / 8)) zeros18
   = firstn (16 * Z.to_nat (9 / 8)) ninth_is_one /\
   firstn (16 * Z.to_nat (9 / 8)) zeros18
   = firstn (16 * Z.to_nat (9 / 8)) zeros18) /\
  exists (r : float) (t : list event),
    distance_run uneven_hi 6 zeros18 zeros18 9 = Ret (r, t) /\
    distance_run uneven_hi 6 ninth_is_one zeros18 9 = Ret (r, t).
Proof.
  assert (H : 8 <= 9 /\
   2 * 9 <= Z.of_nat (length zeros18) /\
   2 * 9 <= Z.of_nat (length ninth_is_one) /\
   2 * 9 <= SIZE_MAX1 /\
   9 / 8 + 4 < Z.of_nat 6) by (rewrite SIZE_MAX1_eq; cbn; lia).
  destruct H as (H1 & H2 & H3 & H4 & H5).
  assert (A1 : firstn (16 * Z.to_nat (9 / 8)) zeros18
               = firstn (16 * Z.to_nat (9 / 8)) ninth_is_one) by reflexivity.
  assert (A2 : firstn (16 * Z.to_nat (9 / 8)) zeros18
               = firstn (16 * Z.to_nat (9 / 8)) zeros18) by reflexivity.
  split; [repeat split; assumption|].
  exact (tail_elements_never_read uneven_hi 6 zeros18 zeros18 ninth_is_one
           zeros18 9 H1 H2 H2 H3 H2 H4 H5 A1 A2).
Defined.

(** ** The vectorized loop *)

Lemma loadu_in_bounds (p : buffer) (off : Z) :
  0 <= off -> off + 16 <= Z.of_nat (length p) ->
  _mm_loadu_si128 p off = Some (bytes_at p off 16).
Proof.
  intros H0 H. unfold _mm_loadu_si128, bytes_at.
  apply loadn_in_bounds; [exact H0|]. change (Z.of_nat 16) with 16. lia.
Qed.

Lemma main_loop_run_terms (vec1 vec2 : buffer) (size : Z) :
  8 <= size < SIZE_MAX1 ->
  2 * size <= Z.of_nat (length vec1) ->
  2 * size <= Z.of_nat (length vec2) ->
  forall (n fuel k : nat) (s : state),
    idx s = 8 * Z.of_nat k ->
    Z.of_nat k + Z.of_nat n = size / 8 ->
    (n < fuel)%nat ->
    exists s',
      main_loop fuel vec1 vec2 size s = Ret s' /\
      idx s' = 8 * (size / 8) /\
      acc s' = add_group_terms vec1 vec2 k n (acc s).
Proof.
  intros Hsize H1 H2.
  assert (Hb : wrap (size - 8) = size - 8) by (apply wrap_small; lia).
  pose proof (Z.mul_div_le size 8 ltac:(lia)) as Hdiv.
  pose proof (Z.mod_pos_bound size 8 ltac:(lia)) as Hmod.
  pose proof (Z.div_mod size 8 ltac:(lia)) as Hdm.
  induction n as [|n IH]; intros fuel k s Hidx Hk Hfuel;
    (destruct fuel as [|fuel]; [lia|]); cbn [main_loop]; rewrite Hb.
  - assert (E : (idx s <=? size - 8) = false) by (apply Z.leb_gt; lia).
    rewrite E. exists s. repeat split. lia.
  - assert (E : (idx s <=? size - 8) = true) by (apply Z.leb_le; lia).
    rewrite E.
    pose proof (wrap_range (idx s * 2)) as Hw.
    pose proof (wrap_le (idx s * 2) ltac:(lia)) as Hw'.
    rewrite !loadu_in_bounds by lia.
    match goal with
    | |- exists s', main_loop _ _ _ _ ?st = _ /\ _ =>
        destruct (IH fuel (S k) st) as (s' & Hrun & Hi & Ha)
    end.
    + cbn [idx]. rewrite wrap_small; lia.
    + lia.
    + lia.
    + exists s'. split; [exact Hrun|]. split; [exact Hi|].
      rewrite Ha. cbn [acc]. unfold add_group_terms. cbn [seq fold_left].
      rewrite Hidx. reflexivity.
Qed.

(** C5. For every size of at least 8 the vectorized loop ends, after
    exactly [size / 8] iterations, with [i] at [8 * (size / 8)]. The
    iteration at element index [i] loads the sixteen bytes at the byte
    offset [i * 2] of each buffer, as [size_t] computes it, which is
    [i * 2] itself whenever [2 * size] fits in a [size_t]; the bytes lie
    within the first [2 * size] bytes of the buffer. What the loop leaves
    in the accumulator is computed from exactly these bytes: it is the sum,
    over the groups, of the squared differences of the eight binary16
    elements the sixteen bytes hold, which are the elements
    [i, ..., i + 7]. The loads are made: on buffers that lack a byte of
    the whole groups the loop reads out of bounds. *)
Theorem main_loop_iterations (fuel : nat) (vec1 vec2 : buffer) (size : Z) :
  8 <= size < SIZE_MAX1 ->
  2 * size <= Z.of_nat (length vec1) ->
  2 * size <= Z.of_nat (length vec2) ->
  size / 8 < Z.of_nat fuel ->
  exists s : state,
    main_loop fuel vec1 vec2 size initial = Ret s /\
    idx s = 8 * (size / 8) /\
    trace s = group_events 0 (Z.to_nat (size / 8)) /\
    Z.of_nat (length (trace s)) = size / 8 /\
    acc s = add_group_terms vec1 vec2 0 (Z.to_nat (size / 8)) _mm256_setzero_ps /\
    (2 * size <= SIZE_MAX1 ->
     acc s = add_groups vec1 vec2 0 (Z.to_nat (size / 8)) _mm256_setzero_ps) /\
    (forall e : event, In e (trace s) ->
      exists i : Z,
        e = EvGroup i (wrap (i * 2)) /\
        i mod 8 = 0 /\ 0 <= i <= size - 8 /\
        0 <= wrap (i * 2) /\ wrap (i * 2) + 16 <= 2 * size /\
        (2 * size <= SIZE_MAX1 -> wrap (i * 2) = i * 2) /\
        _mm_loadu_si128 vec1 (wrap (i * 2))
        = Some (bytes_at vec1 (wrap (i * 2)) 16) /\
        _mm_loadu_si128 vec2 (wrap (i * 2))
        = Some (bytes_at vec2 (wrap (i * 2)) 16)) /\
    (2 * size <= SIZE_MAX1 ->
     forall short1 short2 : buffer,
       Z.of_nat (length short1) < 16 * (size / 8)
       \/ Z.of_nat (length short2) < 16 * (size / 8) ->
       main_loop fuel short1 short2 size initial = Fault).
Proof.
  intros Hsize L1 L2 Hfuel.
  pose proof (Z.div_mod size 8 ltac:(lia)) as Hdm.
  pose proof (Z.mod_pos_bound size 8 ltac:(lia)) as Hmod.
  assert (Hq : 1 <= size / 8) by (apply Z.div_le_lower_bound; lia).
  destruct (main_loop_run vec1 vec2 size Hsize L1 L2
              (Z.to_nat (size / 8)) fuel 0%nat initial)
    as (s & Hrun & Hi & Ht & Ha); try (cbn [idx initial]; lia).
  destruct (main_loop_run_terms vec1 vec2 size Hsize L1 L2
              (Z.to_nat (size / 8)) fuel 0%nat initial)
    as (s' & Hrun' & _ & Ha'); try (cbn [idx initial]; lia).
  rewrite Hrun in Hrun'. injection Hrun' as <-.
  cbn [initial trace acc app] in Ht, Ha, Ha'.
  exists s. split; [exact Hrun|]. split; [exact Hi|]. split; [exact Ht|].
  split; [|split; [exact Ha'|split; [exact Ha|split]]].
  - rewrite Ht. unfold group_events. rewrite length_map, length_seq. lia.
  - intros e He. rewrite Ht in He. unfold group_events in He.
    apply in_map_iff in He. destruct He as (j & <- & Hj).
    apply in_seq in Hj. exists (8 * Z.of_nat j).
    pose proof (wrap_range (8 * Z.of_nat j * 2)) as Hw.
    pose proof (wrap_le (8 * Z.of_nat j * 2) ltac:(lia)) as Hw'.
    split; [reflexivity|]. split.
    { rewrite Z.mul_comm. apply Z.mod_mul. lia. }
    split; [lia|]. split; [lia|]. split; [lia|]. split.
    { intros Haddr. apply wrap_small. lia. }
    split; apply loadu_in_bounds; lia.
  - intros Haddr short1 short2 Hshort.
    apply (main_loop_faults short1 short2 size ltac:(lia) Haddr Hshort
             (Z.to_nat (size / 8)) fuel 0%nat initial);
      try reflexivity; lia.
Qed.

Lemma main_loop_iterations_witness :
  (8 <= 8 < SIZE_MAX1 /\
   2 * 8 <= Z.of_nat (length one_to_eight) /\
   2 * 8 <= Z.of_nat (length one_to_seven_nine) /\
   8 / 8 < Z.of_nat 2) /\
  exists s : state,
    main_loop 2 one_to_eight one_to_seven_nine 8 initial = Ret s /\
    idx s = 8 * (8 / 8) /\
    trace s = group_events 0 (Z.to_nat (8 / 8)) /\
    Z.of_nat (length (trace s)) = 8 / 8 /\
    acc s = add_group_terms one_to_eight one_to_seven_nine 0 (Z.to_nat (8 / 8))
              _mm256_setzero_ps /\
    (2 * 8 <= SIZE_MAX1 ->
     acc s = add_groups one_to_eight one_to_seven_nine 0 (Z.to_nat (8 / 8))
               _mm256_setzero_ps) /\
    (forall e : event, In e (trace s) ->
      exists i : Z,
        e = EvGroup i (wrap (i * 2)) /\
        i mod 8 = 0 /\ 0 <= i <= 8 - 8 /\
        0 <= wrap (i * 2) /\ wrap (i * 2) + 16 <= 2 * 8 /\
        (2 * 8 <= SIZE_MAX1 -> wrap (i * 2) = i * 2) /\
        _mm_loadu_si128 one_to_eight (wrap (i * 2))
        = Some (bytes_at one_to_eight (wrap (i * 2)) 16) /\
        _mm_loadu_si128 one_to_seven_nine (wrap (i * 2))
        = Some (bytes_at one_to_seven_nine (wrap (i * 2)) 16)) /\
    (2 * 8 <= SIZE_MAX1 ->
     forall short1 short2 : buffer,
       Z.of_nat (length short1) < 16 * (8 / 8)
       \/ Z.of_nat (length short2) < 16 * (8 / 8) ->
       main_loop 2 short1 short2 8 initial = Fault).
Proof.
  assert (H : 8 <= 8 < SIZE_MAX1 /\
   2 * 8 <= Z.of_nat (length one_to_eight) /\
   2 * 8 <= Z.of_nat (length one_to_seven_nine) /\
   8 / 8 < Z.of_nat 2).
  { rewrite SIZE_MAX1_eq. cbn. lia. }
  split; [exact H|].
  destruct H as (H1 & H2 & H3 & H4).
  exact (main_loop_iterations 2 one_to_eight one_to_seven_nine 8 H1 H2 H3 H4).
Defined.

(** ** The kernel against the brute-force sum, both ways *)

Lemma close_of_approx_rev (r b : float) (S : Z) :
  approx 20 r S -> approx 128 b S -> within_1e5 b r.
Proof.
  intros (Nr & HS & Rlo & Rhi) (Nb & _ & Blo & Bhi).
  pose proof (val_nonneg r Nr) as Vr. pose proof (val_nonneg b Nb) as Vb.
  assert (Fr : is_finite r = true).
  { destruct Nr as [->|Nr]; [reflexivity|]. destruct r; (reflexivity || contradiction). }
  assert (Fb : is_finite b = true).
  { destruct Nb as [->|Nb]; [reflexivity|]. destruct b; (reflexivity || contradiction). }
  split; [exact Fb|]. split; [exact Fr|].
  set (R := val r) in *. set (B := val b) in *. clearbody R B.
  change (Z.of_nat 20) with 20 in *. change (Z.of_nat 128) with 128 in *.
  let c := eval vm_compute in (16777215 ^ 20) in change (16777215 ^ 20) with c in *.
  let c := eval vm_compute in (16777216 ^ 20) in change (16777216 ^ 20) with c in *.
  let c := eval vm_compute in (16777217 ^ 20) in change (16777217 ^ 20) with c in *.
  let c := eval vm_compute in (16777215 ^ 128) in change (16777215 ^ 128) with c in *.
  let c := eval vm_compute in (16777216 ^ 128) in change (16777216 ^ 128) with c in *.
  let c := eval vm_compute in (16777217 ^ 128) in change (16777217 ^ 128) with c in *.
  lia.
Qed.

(** C3 (as amended). For vectors whose elements are all finite and a
    size that is a multiple of 8 between 8 and 128, the kernel returns a
    value that is within relative error [10^-5] of the brute-force
    binary32 sum of the squared decoded differences taken in element
    order, and the brute-force sum is within relative error [10^-5] of
    the value returned. *)
Theorem distance_and_brute_force_within_1e5 (u : indeterminate) (fuel : nat)
  (vec1 vec2 : buffer) (size : Z) :
  8 <= size <= 128 -> size mod 8 = 0 ->
  2 * size <= Z.of_nat (length vec1) ->
  2 * size <= Z.of_nat (length vec2) ->
  size / 8 < Z.of_nat fuel ->
  (forall i, 0 <= i < size -> finite_half (half_at vec1 i) = true) ->
  (forall i, 0 <= i < size -> finite_half (half_at vec2 i) = true) ->
  exists r : float,
    distance u fuel vec1 vec2 size = Ret r /\
    within_1e5 r (brute_force vec1 vec2 size) /\
    within_1e5 (brute_force vec1 vec2 size) r.
Proof.
  intros Hs Hmod L1 L2 Hfuel F1 F2.
  exists (lanewise_sum vec1 vec2 size). split.
  { unfold distance.
    rewrite distance_run_whole_groups;
      try assumption; try (rewrite ?SIZE_MAX1_eq; lia).
    reflexivity. }
  pose proof (Z.div_mod size 8 ltac:(lia)) as Hdm.
  assert (E : size = 8 * Z.of_nat (Z.to_nat (size / 8))) by lia.
  set (n := Z.to_nat (size / 8)) in *.
  assert (Hn : (n <= 16)%nat) by (subst n; lia).
  assert (G1 : forall i, 0 <= i < 8 * Z.of_nat n ->
                 finite_half (half_at vec1 i) = true)
    by (intros i Hi; apply F1; lia).
  assert (G2 : forall i, 0 <= i < 8 * Z.of_nat n ->
                 finite_half (half_at vec2 i) = true)
    by (intros i Hi; apply F2; lia).
  pose proof (lanewise_sum_approx vec1 vec2 n Hn G1 G2) as A.
  pose proof (brute_force_approx vec1 vec2 n Hn G1 G2) as B.
  rewrite E. split.
  - eapply close_of_approx.
    + apply (approx_weaken (n + 4)); [lia|exact A].
    + apply (approx_weaken (8 * n)); [lia|exact B].
  - eapply close_of_approx_rev.
    + apply (approx_weaken (n + 4)); [lia|exact A].
    + apply (approx_weaken (8 * n)); [lia|exact B].
Qed.

Lemma distance_and_brute_force_within_1e5_witness :
  (8 <= 8 <= 128 /\ 8 mod 8 = 0 /\
   2 * 8 <= Z.of_nat (length one_to_eight) /\
   2 * 8 <= Z.of_nat (length one_to_seven_nine) /\
   8 / 8 < Z.of_nat 2 /\
   (forall i, 0 <= i < 8 -> finite_half (half_at one_to_eight i) = true) /\
   (forall i, 0 <= i < 8 -> finite_half (half_at one_to_seven_nine i) = true)) /\
  exists r : float,
    distance zero_hi 2 one_to_eight one_to_seven_nine 8 = Ret r /\
    within_1e5 r (brute_force one_to_eight one_to_seven_nine 8) /\
    within_1e5 (brute_force one_to_eight one_to_seven_nine 8) r.
Proof.
  assert (H : 8 <= 8 <= 128 /\ 8 mod 8 = 0 /\
   2 * 8 <= Z.of_nat (length one_to_eight) /\
   2 * 8 <= Z.of_nat (length one_to_seven_nine) /\
   8 / 8 < Z.of_nat 2) by (cbn; lia).
  destruct H as (H1 & H2 & H3 & H4 & H5).
  split.
  - repeat split; try assumption; try lia.
    + exact one_to_eight_finite.
    + exact one_to_seven_nine_finite.
  - exact (distance_and_brute_force_within_1e5 zero_hi 2 one_to_eight
             one_to_seven_nine 8 H1 H2 H3 H4 H5
             one_to_eight_finite one_to_seven_nine_finite).
Defined.

(** ** The remainder squares in the eight lanes *)

Lemma add_rems_lanes (u : indeterminate) (vec1 vec2 : buffer) (i0 : Z)
  (c : nat) :
  forall (k : nat) (a0 a1 a2 a3 a4 a5 a6 a7 : float),
    let T (x : float) :=
      fold_left
        (fun x j => f32_add x (rem_sq u vec1 vec2 (i0 + 2 * Z.of_nat j)))
        (seq k c) x in
    add_rems u vec1 vec2 i0 k c [a0; a1; a2; a3; a4; a5; a6; a7]
    = [T a0; T a1; T a2; T a3; T a4; T a5; T a6; T a7].
Proof.
  induction c as [|c IH]; intros k a0 a1 a2 a3 a4 a5 a6 a7.
  - reflexivity.
  - cbn zeta in *. unfold add_rems in *. cbn [seq fold_left].
    unfold _mm256_add_ps, _mm256_set1_ps. cbn [repeat lanewise].
    rewrite IH. reflexivity.
Qed.

Lemma reduce_approx (m : nat) (t0 t1 t2 t3 t4 t5 t6 t7 : float)
  (U0 U1 U2 U3 U4 U5 U6 U7 : Z) :
  approx m t0 U0 -> approx m t1 U1 -> approx m t2 U2 -> approx m t3 U3 ->
  approx m t4 U4 -> approx m t5 U5 -> approx m t6 U6 -> approx m t7 U7 ->
  (m <= 196)%nat ->
  U0 + U1 + U2 + U3 + U4 + U5 + U6 + U7 < 2 ^ 270 ->
  approx (m + 4)
    (f32_add
       (f32_add (f32_add (f32_add t0 t4) (f32_add t1 t5)) (f32_add t2 t6))
       (f32_add t3 t7))
    (U0 + U1 + U2 + U3 + U4 + U5 + U6 + U7).
Proof.
  intros A0 A1 A2 A3 A4 A5 A6 A7 Hm Hb.
  assert (P0 := proj1 (proj2 A0)). assert (P1 := proj1 (proj2 A1)).
  assert (P2 := proj1 (proj2 A2)). assert (P3 := proj1 (proj2 A3)).
  assert (P4 := proj1 (proj2 A4)). assert (P5 := proj1 (proj2 A5)).
  assert (P6 := proj1 (proj2 A6)). assert (P7 := proj1 (proj2 A7)).
  set (B := 2 ^ 270) in *.
  pose proof (approx_add m _ _ _ _ A0 A4 ltac:(lia) ltac:(lia)) as P04.
  pose proof (approx_add m _ _ _ _ A1 A5 ltac:(lia) ltac:(lia)) as P15.
  pose proof (approx_add m _ _ _ _ A2 A6 ltac:(lia) ltac:(lia)) as P26.
  pose proof (approx_add m _ _ _ _ A3 A7 ltac:(lia) ltac:(lia)) as P37.
  pose proof (approx_add (S m) _ _ _ _ P04 P15 ltac:(lia) ltac:(lia)) as Q1.
  pose proof (approx_add (S (S m)) _ _ _ _ Q1
                (approx_weaken (S m) (S (S m)) _ _ ltac:(lia) P26)
                ltac:(lia) ltac:(lia)) as Q2.
  pose proof (approx_add (S (S (S m))) _ _ _ _ Q2
                (approx_weaken (S m) (S (S (S m))) _ _ ltac:(lia) P37)
                ltac:(lia) ltac:(lia)) as Q3.
  replace (m + 4)%nat with (S (S (S (S m)))) by lia.
  replace (U0 + U1 + U2 + U3 + U4 + U5 + U6 + U7)
    with (U0 + U4 + (U1 + U5) + (U2 + U6) + (U3 + U7)) by ring.
  exact Q3.
Qed.

(** C9. Each squared difference of the remainder loop reaches the
    returned scalar eight times.  For a size of at least 8 the function
    returns the reduction [(((T0 + T4) + (T1 + T5)) + (T2 + T6)) + (T3 + T7)]
    of the eight lanes, where lane [Tk] is the total of lane [k] after the
    vectorized loop with the squared difference of every remainder
    iteration added to it: [_mm256_set1_ps] puts the square in all eight
    lanes and the reduction adds all eight.  In value: when the lanes after
    the vectorized loop stand for the reals [S0 .. S7] up to [k] roundings
    and the remainder squares are zero or positive normal numbers, the
    returned scalar stands for [S0 + ... + S7] plus eight times the sum of
    the remainder squares, up to [k + c + 4] roundings, [c] being the
    number of remainder iterations. *)
Theorem remainder_square_counts_eight_times (u : indeterminate) (fuel : nat)
  (vec1 vec2 : buffer) (size : Z) :
  8 <= size ->
  2 * size <= Z.of_nat (length vec1) ->
  2 * size <= Z.of_nat (length vec2) ->
  2 * size <= SIZE_MAX1 ->
  size / 8 + 4 < Z.of_nat fuel ->
  let i0 := 8 * (size / 8) in
  let c := Z.to_nat ((size mod 8 + 1) / 2) in
  let sq (j : nat) := rem_sq u vec1 vec2 (i0 + 2 * Z.of_nat j) in
  let L := lane_total vec1 vec2 (Z.to_nat (size / 8)) in
  let T (k : nat) := rem_total u vec1 vec2 i0 c (L k) in
  let r :=
    f32_add
      (f32_add (f32_add (f32_add (T 0%nat) (T 4%nat))
                        (f32_add (T 1%nat) (T 5%nat)))
               (f32_add (T 2%nat) (T 6%nat)))
      (f32_add (T 3%nat) (T 7%nat)) in
  distance u fuel vec1 vec2 size = Ret r /\
  forall (k : nat) (S0 S1 S2 S3 S4 S5 S6 S7 : Z),
    approx k (L 0%nat) S0 -> approx k (L 1%nat) S1 ->
    approx k (L 2%nat) S2 -> approx k (L 3%nat) S3 ->
    approx k (L 4%nat) S4 -> approx k (L 5%nat) S5 ->
    approx k (L 6%nat) S6 -> approx k (L 7%nat) S7 ->
    (forall j : nat, (j < c)%nat -> nonneg (sq j) /\ val (sq j) < 2 ^ 186) ->
    (k <= 190)%nat ->
    S0 + S1 + S2 + S3 + S4 + S5 + S6 + S7 < 2 ^ 260 ->
    approx (k + c + 4) r
      (S0 + S1 + S2 + S3 + S4 + S5 + S6 + S7
       + 8 * sumZ (map (fun j => val (sq j)) (seq 0 c))).
Proof.
  intros H8 L1 L2 Haddr Hfuel i0 c sq L T r.
  pose proof (Z.mod_pos_bound size 8 ltac:(lia)) as Hmod.
  assert (Hc : (c <= 4)%nat).
  { subst c.
    assert ((size mod 8 + 1) / 2 <= 4)
      by (apply Z.div_le_upper_bound; lia).
    assert (0 <= (size mod 8 + 1) / 2) by (apply Z.div_pos; lia).
    lia. }
  split.
  - unfold distance.
    rewrite distance_run_general by assumption.
    cbn [bind fst]. f_equal.
    unfold _mm256_setzero_ps. cbn [repeat].
    rewrite add_groups_lanes. cbn zeta.
    rewrite add_rems_lanes. reflexivity.
  - intros k S0 S1 S2 S3 S4 S5 S6 S7 A0 A1 A2 A3 A4 A5 A6 A7 Hsq Hk Hb.
    assert (P0 := proj1 (proj2 A0)). assert (P1 := proj1 (proj2 A1)).
    assert (P2 := proj1 (proj2 A2)). assert (P3 := proj1 (proj2 A3)).
    assert (P4 := proj1 (proj2 A4)). assert (P5 := proj1 (proj2 A5)).
    assert (P6 := proj1 (proj2 A6)). assert (P7 := proj1 (proj2 A7)).
    assert (Hin : forall j, In j (seq 0 c) ->
                    nonneg (sq j) /\ val (sq j) < 2 ^ 186).
    { intros j Hj. apply in_seq in Hj. apply Hsq. lia. }
    set (V := sumZ (map (fun j => val (sq j)) (seq 0 c))).
    assert (HV : 0 <= V <= 2 ^ 186 * 4).
    { pose proof (sumZ_bound (fun j => val (sq j)) (2 ^ 186) (seq 0 c)) as HB.
      rewrite length_seq in HB.
      assert (G : forall j, In j (seq 0 c) -> 0 <= val (sq j) < 2 ^ 186).
      { intros j Hj. destruct (Hin j Hj) as [N B].
        pose proof (val_nonneg _ N). lia. }
      specialize (HB G). fold V in HB.
      assert (2 ^ 186 * Z.of_nat c <= 2 ^ 186 * 4)
        by (apply Z.mul_le_mono_nonneg_l; lia).
      lia. }
    assert (E260 : 2 ^ 270 = 2 ^ 260 * 1024) by reflexivity.
    assert (E186 : 2 ^ 260 = 2 ^ 186 * 2 ^ 74) by reflexivity.
    assert (P74 : 2 ^ 74 = 18889465931478580854784) by reflexivity.
    assert (P186 : 0 < 2 ^ 186) by reflexivity.
    set (B186 := 2 ^ 186) in *. set (B260 := 2 ^ 260) in *.
    set (B270 := 2 ^ 270) in *.
    assert (Hlane : forall (x : float) (S : Z),
              approx k x S -> S <= S0 + S1 + S2 + S3 + S4 + S5 + S6 + S7 ->
              approx (k + c) (rem_total u vec1 vec2 i0 c x) (S + V)).
    { intros x S A HS.
      pose proof (approx_fold sq (seq 0 c) Hin k x S A) as F.
      rewrite length_seq in F. apply F; [lia|].
      fold B186 B270.
      assert (B186 * Z.of_nat c <= B186 * 4)
        by (apply Z.mul_le_mono_nonneg_l; lia).
      nia. }
    replace (S0 + S1 + S2 + S3 + S4 + S5 + S6 + S7 + 8 * V)
      with ((S0 + V) + (S1 + V) + (S2 + V) + (S3 + V)
            + (S4 + V) + (S5 + V) + (S6 + V) + (S7 + V)) by ring.
    apply reduce_approx; try (apply Hlane; [assumption|lia]); [lia|].
    fold B270. nia.
Qed.

Lemma remainder_square_counts_eight_times_witness :
  (8 <= 9 /\
   2 * 9 <= Z.of_nat (length zeros18) /\
   2 * 9 <= Z.of_nat (length zeros18) /\
   2 * 9 <= SIZE_MAX1 /\
   9 / 8 + 4 < Z.of_nat 6) /\
  distance uneven_hi 6 zeros18 zeros18 9
  = Ret (S754_finite false 8388608 (-20)) /\
  rem_sq uneven_hi zeros18 zeros18 8 = S754_finite false 8388608 (-23) /\
  approx 5 (S754_finite false 8388608 (-20))
    (8 * val (S754_finite false 8388608 (-23))).
Proof.
  assert (H : 8 <= 9 /\
   2 * 9 <= Z.of_nat (length zeros18) /\
   2 * 9 <= Z.of_nat (length zeros18) /\
   2 * 9 <= SIZE_MAX1 /\
   9 / 8 + 4 < Z.of_nat 6) by (rewrite SIZE_MAX1_eq; cbn; lia).
  split; [exact H|].
  destruct H as (H1 & H2 & H3 & H4 & H5).
  destruct (remainder_square_counts_eight_times uneven_hi 6 zeros18 zeros18 9
              H1 H2 H3 H4 H5) as [R V].
  split; [rewrite R; vm_compute; reflexivity|].
  split; [vm_compute; reflexivity|].
  assert (Z0 : forall k : nat, (k < 8)%nat ->
            lane_total zeros18 zeros18 (Z.to_nat (9 / 8)) k = f32_zero).
  { intros k Hk.
    do 8 (destruct k as [|k]; [vm_compute; reflexivity|]). lia. }
  assert (A : forall k : nat, (k < 8)%nat ->
            approx 0 (lane_total zeros18 zeros18 (Z.to_nat (9 / 8)) k) 0)
    by (intros k Hk; rewrite Z0 by exact Hk; exact approx_zero).
  assert (Q : rem_sq uneven_hi zeros18 zeros18 (8 * (9 / 8) + 2 * Z.of_nat 0)
              = S754_finite false 8388608 (-23))
    by (vm_compute; reflexivity).
  specialize (V 0%nat 0 0 0 0 0 0 0 0
                (A 0%nat ltac:(lia)) (A 1%nat ltac:(lia))
                (A 2%nat ltac:(lia)) (A 3%nat ltac:(lia))
                (A 4%nat ltac:(lia)) (A 5%nat ltac:(lia))
                (A 6%nat ltac:(lia)) (A 7%nat ltac:(lia))).
  cbn zeta in V.
  replace (Z.to_nat ((9 mod 8 + 1) / 2)) with 1%nat in V by reflexivity.
  cbn [seq map sumZ fold_right] in V.
  unfold rem_total in V. cbn [seq fold_left] in V.
  rewrite !Z0 in V by lia.
  rewrite !Q in V.
  assert (Hsq : forall j : nat, (j < 1)%nat ->
            nonneg (rem_sq uneven_hi zeros18 zeros18
                      (8 * (9 / 8) + 2 * Z.of_nat j)) /\
            val (rem_sq uneven_hi zeros18 zeros18
                   (8 * (9 / 8) + 2 * Z.of_nat j)) < 2 ^ 186).
  { intros j Hj. assert (j = 0%nat) by lia. subst j. rewrite Q.
    split; [right; cbn; lia|vm_compute; reflexivity]. }
  specialize (V Hsq ltac:(lia) ltac:(reflexivity)).
  replace (f32_add
             (f32_add
                (f32_add
                   (f32_add (f32_add f32_zero (S754_finite false 8388608 (-23)))
                            (f32_add f32_zero (S754_finite false 8388608 (-23))))
                   (f32_add (f32_add f32_zero (S754_finite false 8388608 (-23)))
                            (f32_add f32_zero (S754_finite false 8388608 (-23)))))
                (f32_add (f32_add f32_zero (S754_finite false 8388608 (-23)))
                         (f32_add f32_zero (S754_finite false 8388608 (-23)))))
             (f32_add (f32_add f32_zero (S754_finite false 8388608 (-23)))
                      (f32_add f32_zero (S754_finite false 8388608 (-23)))))
    with (S754_finite false 8388608 (-20)) in V by (vm_compute; reflexivity).
  replace (0 + 0 + 0 + 0 + 0 + 0 + 0 + 0
           + 8 * (val (S754_finite false 8388608 (-23)) + 0))
    with (8 * val (S754_finite false 8388608 (-23))) in V by lia.
  exact V.
Defined.
